(** * simplebf: a Bloom filter over [std::vector<bool>]

    A shallow embedding of [sbf::hash::Djb2] (src/util.cc) and of the class
    template [sbf::BloomFilter<T>] (simplebf/bloom_filter.h), with
    the properties its specification states about them.

    Conventions.
    - [std::size_t] is a 64-bit unsigned integer, modelled as a [Z] in
      [0, 2^64); every addition and shift that can leave that range is
      wrapped explicitly with [to_size_t].
    - [int] flags are a [Z]; [&], [|] and [~] are [Z.land], [Z.lor] and
      [Z.lnot] (two's complement on [Z]).
    - [std::string] is [String.string]; a [char] is an [ascii] together
      with the platform's choice of signedness for plain [char].
    - [std::vector<bool>] is [list bool]; [v[i]] is stdpp's lookup and
      [v[i] = x] stdpp's insert.  Indexing out of range is undefined in
      C++; the model reads [false] and writes nothing there, and
      [Hash_in_range] shows that a constructed filter never does so.
    - [std::hash<T>] and [std::to_string] belong to the C++ library, not
      to this repository; they are parameters of the development.
    - [double] is IEC 60559 binary64, evaluated in that format and
      rounded to nearest, as on x86-64; [std::log(2)] is the binary64
      number nearest to ln 2.  The conversion to [int] of a [double]
      beyond the range of [int] is undefined in C++; its result is a
      parameter of the platform.
    - Allocation never fails: [std::bad_alloc] is not modelled. *)

From Stdlib Require Import ZArith List String Ascii Lia Bool DecimalString.
From Stdlib Require Import Reals Lra QArith Qreals.
From stdpp Require Import base list.

Open Scope Z_scope.

(** ** Machine arithmetic *)

Definition size_t_bits : Z := 64.
Definition size_t_modulus : Z := 2 ^ size_t_bits.

(** Reduction into [std::size_t]: unsigned wrap-around, and the value
    conversion [static_cast<std::size_t>(x)] from a signed integer. *)
Definition to_size_t (x : Z) : Z := x mod size_t_modulus.

(** [x << n] on [std::size_t]. *)
Definition shl (x n : Z) : Z := to_size_t (Z.shiftl x n).

(** [x + y] on [std::size_t]. *)
Definition add (x y : Z) : Z := to_size_t (x + y).

(** [x - y] on [std::size_t]. *)
Definition sub (x y : Z) : Z := to_size_t (x - y).

Definition is_size_t (x : Z) : Prop := 0 <= x < size_t_modulus.

(** ** IEC 60559 binary64: the [double] arithmetic of [SetOptimalNumHashes] *)

(** A [double] that is not negative: the finite value [m * 2^e], an
    infinity, or a NaN.  No operand of
    [std::log(2) * NumBits() / max_num_entries] is negative. *)
Inductive binary64 :=
| B64_finite (m e : Z)
| B64_infinity
| B64_nan.

(** The integer nearest to [n / d], ties to even. *)
Definition nearest_even (n d : Z) : Z :=
  let q := n / d in
  let r := n mod d in
  if 2 * r <? d then q
  else if d <? 2 * r then q + 1
  else if Z.even q then q else q + 1.

(** The exponent [e] with [2^52 <= (num / den) / 2^e < 2^53]. *)
Definition b64_raw_exponent (num den : Z) : Z :=
  let e0 := Z.log2 num - Z.log2 den - 53 in
  if 2 ^ 53 * (den * 2 ^ Z.max 0 e0) <=? num * 2 ^ Z.max 0 (- e0)
  then e0 + 1 else e0.

(** Subnormal numbers share the least exponent, -1074. *)
Definition b64_exponent (num den : Z) : Z :=
  Z.max (b64_raw_exponent num den) (-1074).

(** The rational [num / den] ([0 <= num], [0 < den]) rounded to binary64
    in the default rounding mode, to nearest with ties to even: a
    mantissa of 53 bits, exponents from -1074 to 971, an infinity beyond
    the greatest finite number [(2^53 - 1) * 2^971]. *)
Definition b64_round (num den : Z) : binary64 :=
  if num =? 0 then B64_finite 0 0
  else
    let e := b64_exponent num den in
    let m := nearest_even (num * 2 ^ Z.max 0 (- e)) (den * 2 ^ Z.max 0 e) in
    if (971 <? e) || ((e =? 971) && (2 ^ 53 <=? m)) then B64_infinity
    else B64_finite m e.

(** The binary64 number nearest to ln 2 is [ln2_binary64 * 2^-53]
    ([ln2_enclosure] below); it is the value of [std::log(2)] in an
    implementation that rounds the logarithm correctly at 2, as glibc
    does. *)
Definition ln2_binary64 : Z := 6243314768165359.

(** [std::log(2)]: the [int] argument selects the [double] overload. *)
Definition std_log_2 : binary64 := B64_finite ln2_binary64 (-53).

(** The conversion of a [std::size_t] operand to [double]. *)
Definition b64_of_size_t (n : Z) : binary64 := b64_round n 1.

(** [x * y] on [double]. *)
Definition b64_mul (x y : binary64) : binary64 :=
  match x, y with
  | B64_finite m1 e1, B64_finite m2 e2 =>
      b64_round (m1 * m2 * 2 ^ Z.max 0 (e1 + e2)) (2 ^ Z.max 0 (- (e1 + e2)))
  | B64_nan, _ | _, B64_nan => B64_nan
  | B64_infinity, B64_finite 0 _ | B64_finite 0 _, B64_infinity => B64_nan
  | _, _ => B64_infinity
  end.

(** [x / y] on [double]: a quotient by zero is an infinity, or a NaN when
    [x] is zero as well. *)
Definition b64_div (x y : binary64) : binary64 :=
  match x, y with
  | B64_finite m1 e1, B64_finite m2 e2 =>
      if m2 =? 0 then if m1 =? 0 then B64_nan else B64_infinity
      else b64_round (m1 * 2 ^ Z.max 0 (e1 - e2)) (m2 * 2 ^ Z.max 0 (e2 - e1))
  | B64_nan, _ | _, B64_nan => B64_nan
  | B64_infinity, B64_infinity => B64_nan
  | B64_infinity, _ => B64_infinity
  | _, B64_infinity => B64_finite 0 0
  end.

(** What the C++ implementation fixes and the repository does not:
    whether plain [char] is signed (it is on x86 Linux, the environment the
    README names), and the [int] that [static_cast<int>] yields for a
    [double] whose truncated value no [int] holds (an infinity or a NaN
    included).  The C++ standard leaves that conversion undefined; the
    model takes the result to be some [int]. *)
Class Platform := {
  char_is_signed : bool;
  out_of_range_to_int : binary64 -> Z;
  out_of_range_to_int_range :
    forall x, - 2 ^ 31 <= out_of_range_to_int x < 2 ^ 31
}.

(** [static_cast<int>(x)] for a [double] that is not negative: the value
    with its fraction discarded where an [int] holds it. *)
Definition b64_to_int `{Platform} (x : binary64) : Z :=
  match x with
  | B64_finite m e =>
      let t := if 0 <=? e then m * 2 ^ e else m / 2 ^ (- e) in
      if (0 <=? t) && (t <? 2 ^ 31) then t else out_of_range_to_int x
  | _ => out_of_range_to_int x
  end.

(** ** namespace sbf::hash (src/util.cc) *)

Module hash.
Section WithPlatform.
Context `{Platform}.

(** The integer value of a [char] holding the byte [c]. *)
Definition char_value (c : ascii) : Z :=
  let u := Z.of_N (N_of_ascii c) in
  if char_is_signed && (128 <=? u) then u - 256 else u.

Definition kHashDjb2 : Z := 5381.

(** The loop of [Djb2]:
    [hash = ((hash << 5) + hash) + static_cast<std::size_t>(c)]. *)
Fixpoint Djb2_loop (str : string) (hash : Z) : Z :=
  match str with
  | EmptyString => hash
  | String c rest =>
      Djb2_loop rest (add (add (shl hash 5) hash) (to_size_t (char_value c)))
  end.

Definition Djb2 (str : string) : Z := Djb2_loop str kHashDjb2.

(** The recurrence as the specification words it: the fold of
    [hash = hash*33 + byte] over the bytes, from the seed 5381, in
    machine-word arithmetic.  The byte is the unsigned value of the
    [char], 0 to 255. *)
Definition Djb2_spec (str : string) : Z :=
  fold_left (fun hash c => (hash * 33 + Z.of_N (N_of_ascii c)) mod 2 ^ 64)
            (list_ascii_of_string str) 5381.

End WithPlatform.
End hash.

(** ** class template sbf::BloomFilter<T> (simplebf/bloom_filter.h) *)

(** The element types the [static_assert] admits: the numeric types that
    [std::to_string] converts, and [std::string].  [std_hash] is
    [std::hash<T>{}], [to_string] is [std::to_string]; for [std::string]
    the explicit specialisation of [SecondHash] hashes the entry itself, so
    there [to_string] is the identity. *)
Class Element (T : Type) := {
  std_hash : T -> Z;
  std_hash_range : forall entry, is_size_t (std_hash entry);
  to_string : T -> string
}.

(** The data members. *)
Record BloomFilter := mkBloomFilter {
  filter_ : list bool;
  num_hashes_ : Z;
  size_ : Z;
  parameter_error_flags_ : Z
}.

Definition kHasLog2NumBitsError : Z := 1.
Definition kHasNumHashesError : Z := 2.
Definition kDefaultLog2NumBits : Z := 8.
Definition kNumDefaultNumHashes : Z := 5.

(** *** Const member functions: functions of the object *)

Definition NumBits (bf : BloomFilter) : Z := Z.of_nat (length (filter_ bf)).

Definition NumHashes (bf : BloomFilter) : Z := num_hashes_ bf.

Definition Size (bf : BloomFilter) : Z := size_ bf.

Definition ParameterErrorFlags (bf : BloomFilter) : Z := parameter_error_flags_ bf.

Definition HasParameterError (bf : BloomFilter) : bool :=
  negb (parameter_error_flags_ bf =? 0).

(** The test the callers make on the flags: [(flags & flag) != 0]. *)
Definition has_flag (bf : BloomFilter) (flag : Z) : bool :=
  negb (Z.land (ParameterErrorFlags bf) flag =? 0).

Definition ModNumBits (bf : BloomFilter) (x : Z) : Z :=
  let mask := sub (NumBits bf) 1 in
  Z.land x mask.

(** The loop of [Hash]: [n] iterations remain, [i] is the loop counter. *)
Fixpoint Hash_loop (n : nat) (i a b mask : Z) (hashes : list Z) : list Z :=
  match n with
  | O => hashes
  | S n' =>
      let a' := Z.land (add a b) mask in
      let b' := Z.land (add b i) mask in
      Hash_loop n' (i + 1) a' b' mask (<[Z.to_nat i := a']> hashes)
  end.

Section WithElement.
Context `{Platform} {T : Type} `{Element T}.

Definition FirstHash (bf : BloomFilter) (entry : T) : Z :=
  ModNumBits bf (std_hash entry).

(** The argument of [ModNumBits] in [SecondHash]:
    [(hash::Djb2(std::to_string(entry)) << 1) | 1]. *)
Definition SecondHash_raw (entry : T) : Z :=
  Z.lor (shl (hash.Djb2 (to_string entry)) 1) 1.

Definition SecondHash (bf : BloomFilter) (entry : T) : Z :=
  ModNumBits bf (SecondHash_raw entry).

(** [hashes] is created with [num_hashes] zeros; the loop runs for
    [i = 1 .. num_hashes - 1]. *)
Definition Hash (bf : BloomFilter) (entry : T) : list Z :=
  let a := FirstHash bf entry in
  let b := SecondHash bf entry in
  let num_hashes := NumHashes bf in
  let hashes := replicate (Z.to_nat num_hashes) 0 in
  let hashes := <[0%nat := a]> hashes in
  let mask := sub (NumBits bf) 1 in
  Hash_loop (Z.to_nat (num_hashes - 1)) 1 a b mask hashes.

End WithElement.

(** *** Member functions as state transformers *)

Definition method (A : Type) : Type := BloomFilter -> A * BloomFilter.

Definition ret {A} (a : A) : method A := fun bf => (a, bf).

Definition bind {A B} (m : method A) (k : A -> method B) : method B :=
  fun bf => let (a, bf') := m bf in k a bf'.

Notation "'let*' x ':=' m 'in' k" := (bind m (fun x => k))
  (at level 10, x name, m at level 100, k at level 200).
Notation "m ';;;' k" := (bind m (fun _ => k))
  (at level 100, k at level 200, right associativity).

(** Reading the object (a data member, or a const member function). *)
Definition get {A} (f : BloomFilter -> A) : method A := fun bf => (f bf, bf).

(** The value of [filter_[hash]]. *)
Definition bit (bf : BloomFilter) (hash : Z) : bool :=
  default false (filter_ bf !! Z.to_nat hash).

(** [filter_[hash]] as an rvalue. *)
Definition read_filter (hash : Z) : method bool :=
  get (fun bf => bit bf hash).

(** [filter_[hash] = b]. *)
Definition write_filter (hash : Z) (b : bool) : method unit :=
  fun bf => (tt, mkBloomFilter (<[Z.to_nat hash := b]> (filter_ bf))
                               (num_hashes_ bf) (size_ bf)
                               (parameter_error_flags_ bf)).

(** [filter_.resize(n)]: the first [n] bits are kept, new bits are false. *)
Definition resize_filter (n : Z) : method unit :=
  fun bf => (tt, mkBloomFilter (resize (Z.to_nat n) false (filter_ bf))
                               (num_hashes_ bf) (size_ bf)
                               (parameter_error_flags_ bf)).

Definition set_num_hashes (n : Z) : method unit :=
  fun bf => (tt, mkBloomFilter (filter_ bf) n (size_ bf)
                               (parameter_error_flags_ bf)).

Definition set_size (n : Z) : method unit :=
  fun bf => (tt, mkBloomFilter (filter_ bf) (num_hashes_ bf) n
                               (parameter_error_flags_ bf)).

Definition set_flags (flags : Z) : method unit :=
  fun bf => (tt, mkBloomFilter (filter_ bf) (num_hashes_ bf) (size_ bf) flags).

(** [parameter_error_flags_ &= ~flag]; the default argument is [-1]. *)
Definition ClearParameterError (flag : Z) : method unit :=
  let* flags := get parameter_error_flags_ in
  set_flags (Z.land flags (Z.lnot flag)).

Definition SetLog2NumBits (log2_num_bits : Z) : method bool :=
  if 33 <? log2_num_bits then
    resize_filter (shl 1 33) ;;;
    (let* flags := get parameter_error_flags_ in
     set_flags (Z.lor flags kHasLog2NumBitsError)) ;;;
    ret false
  else
    resize_filter (shl 1 log2_num_bits) ;;;
    ClearParameterError kHasLog2NumBitsError ;;;
    ret true.

Definition SetNumHashes (num_hashes : Z) : method bool :=
  if num_hashes <? 1 then
    set_num_hashes 1 ;;;
    (let* flags := get parameter_error_flags_ in
     set_flags (Z.lor flags kHasNumHashesError)) ;;;
    ret false
  else
    set_num_hashes num_hashes ;;;
    ClearParameterError kHasNumHashesError ;;;
    ret true.

(** [num_hashes] is [static_cast<int>(std::log(2) * NumBits() /
    max_num_entries)], the [int] converted to [std::size_t]. *)
Definition SetOptimalNumHashes `{Platform} (max_num_entries : Z) : method bool :=
  let* num_bits := get NumBits in
  let num_hashes :=
    to_size_t
      (b64_to_int
         (b64_div (b64_mul std_log_2 (b64_of_size_t num_bits))
                  (b64_of_size_t max_num_entries))) in
  let* successful := SetNumHashes num_hashes in
  ClearParameterError kHasNumHashesError ;;;
  ret successful.

Fixpoint Insert_loop (hashes : list Z) : method unit :=
  match hashes with
  | [] => ret tt
  | hash :: rest => write_filter hash true ;;; Insert_loop rest
  end.

(** The loop of [Contains], with its early [return false]. *)
Fixpoint Contains_loop (hashes : list Z) : method bool :=
  match hashes with
  | [] => ret true
  | hash :: rest =>
      let* bit := read_filter hash in
      if negb bit then ret false else Contains_loop rest
  end.

Section WithElementMethods.
Context `{Platform} {T : Type} `{Element T}.

Definition Insert (entry : T) : method unit :=
  let* hashes := get (fun bf => Hash bf entry) in
  Insert_loop hashes ;;;
  (let* size := get size_ in set_size (add size 1)).

Definition Contains (entry : T) : method bool :=
  let* hashes := get (fun bf => Hash bf entry) in
  Contains_loop hashes.

End WithElementMethods.

(** *** Constructors *)

(** The object after the member initialiser list [size_(0),
    parameter_error_flags_(0)]: [filter_] is empty; [num_hashes_] is not
    initialised (0 stands for its indeterminate value, which
    [SetNumHashes] overwrites before anything reads it). *)
Definition member_init : BloomFilter := mkBloomFilter [] 0 0 0.

Definition BloomFilter2 (num_bits num_hashes : Z) : BloomFilter :=
  snd ((SetLog2NumBits num_bits ;;; SetNumHashes num_hashes) member_init).

Definition BloomFilter1 (num_bits : Z) : BloomFilter :=
  BloomFilter2 num_bits kNumDefaultNumHashes.

Definition BloomFilter0 : BloomFilter := BloomFilter1 kDefaultLog2NumBits.

(** *** Sequences of calls on one object *)

Section Calls.
Context `{Platform} {T : Type} `{Element T}.

Inductive call : Type :=
| CallInsert (entry : T)
| CallContains (entry : T)
| CallSetLog2NumBits (log2_num_bits : Z)
| CallSetNumHashes (num_hashes : Z)
| CallSetOptimalNumHashes (max_num_entries : Z)
| CallClearParameterError (flag : Z).

(** A call returns [Some b] for a [bool] result and [None] for [void]. *)
Definition exec (c : call) : method (option bool) :=
  match c with
  | CallInsert entry => Insert entry ;;; ret None
  | CallContains entry => let* b := Contains entry in ret (Some b)
  | CallSetLog2NumBits e => let* b := SetLog2NumBits e in ret (Some b)
  | CallSetNumHashes k => let* b := SetNumHashes k in ret (Some b)
  | CallSetOptimalNumHashes m => let* b := SetOptimalNumHashes m in ret (Some b)
  | CallClearParameterError flag => ClearParameterError flag ;;; ret None
  end.

Fixpoint exec_all (calls : list call) : method (list (option bool)) :=
  match calls with
  | [] => ret []
  | c :: rest =>
      let* r := exec c in
      let* rs := exec_all rest in
      ret (r :: rs)
  end.

(** The arguments of a call have the C++ parameter types. *)
Definition well_typed (c : call) : Prop :=
  match c with
  | CallInsert _ | CallContains _ => True
  | CallSetLog2NumBits n | CallSetNumHashes n | CallSetOptimalNumHashes n =>
      is_size_t n
  | CallClearParameterError flag => - 2 ^ 31 <= flag < 2 ^ 31
  end.

(** Calls that neither reset nor resize the bit array nor change the
    number of hash functions. *)
Definition insert_or_contains (c : call) : Prop :=
  match c with
  | CallInsert _ | CallContains _ => True
  | _ => False
  end.

(** The objects a program can hold: built by a constructor (the one- and
    zero-argument constructors delegate to the two-argument one), then
    used through the public member functions. *)
Inductive reachable : BloomFilter -> Prop :=
| reachable_new num_bits num_hashes :
    is_size_t num_bits -> is_size_t num_hashes ->
    reachable (BloomFilter2 num_bits num_hashes)
| reachable_call bf c :
    reachable bf -> well_typed c -> reachable (snd (exec c bf)).

End Calls.

(** The class invariant: the bit array has [2^e] bits for some [e <= 33],
    and there is at least one hash function. *)
Definition wf (bf : BloomFilter) : Prop :=
  (exists e, 0 <= e <= 33 /\ NumBits bf = 2 ^ e)
  /\ 1 <= NumHashes bf < size_t_modulus.

(** The bit array after the loop of [Insert] over [hashes]. *)
Definition set_bits (hashes : list Z) (f : list bool) : list bool :=
  fold_left (fun f hash => <[Z.to_nat hash := true]> f) hashes f.

(** [bf'] has the parameters of [bf] and every bit that is set in [bf]. *)
Definition extends (bf bf' : BloomFilter) : Prop :=
  NumBits bf' = NumBits bf
  /\ NumHashes bf' = NumHashes bf
  /\ forall hash, bit bf hash = true -> bit bf' hash = true.

(** *** The probe sequence as the specification words it *)

(** [hashes[i], hashes[i+1], ...] for [n] more positions:
    [a <- (a + b) mod N; b <- (b + i) mod N; hashes[i] = a]. *)
Fixpoint Hash_spec_from (n : nat) (i a b N : Z) : list Z :=
  match n with
  | O => []
  | S n' =>
      let a' := (a + b) mod N in
      let b' := (b + i) mod N in
      a' :: Hash_spec_from n' (i + 1) a' b' N
  end.

Definition Hash_spec (N k h1 h2 : Z) : list Z :=
  h1 :: Hash_spec_from (Z.to_nat (k - 1)) 1 h1 h2 N.

(** *** Instances used to run the model *)

(** x86-64 Linux with g++: plain [char] is signed, and the instruction
    [cvttsd2si] that converts a [double] to [int] yields [INT_MIN] for
    every value that no [int] holds. *)
Definition linux_x86_64 : Platform :=
  {| char_is_signed := true;
     out_of_range_to_int _ := - 2 ^ 31;
     out_of_range_to_int_range _ := conj (Z.le_refl _) eq_refl |}.

(** [unsigned long]: libstdc++'s [std::hash] of an integer is the integer
    itself; [std::to_string] writes it in decimal. *)
Definition unsigned_long_Element : Element N :=
  {| std_hash v := to_size_t (Z.of_N v);
     std_hash_range v := Z.mod_pos_bound (Z.of_N v) size_t_modulus eq_refl;
     to_string v := NilEmpty.string_of_uint (N.to_uint v) |}.

(** [std::string], for any [std::hash<std::string>]: [SecondHash] is the
    specialisation that passes the entry itself to [Djb2]. *)
Definition string_Element (h : string -> Z)
    (h_range : forall s, is_size_t (h s)) : Element string :=
  {| std_hash := h; std_hash_range := h_range; to_string s := s |}.

(** *** Measures used to state properties of call sequences *)

Section CallMeasures.
Context {T : Type}.

Definition is_insert (c : call (T := T)) : bool :=
  match c with
  | CallInsert _ => true
  | _ => false
  end.

(** How many calls of the sequence are [Insert] calls. *)
Definition count_inserts (calls : list (call (T := T))) : nat :=
  length (List.filter is_insert calls).

End CallMeasures.

(** The position [hashes[i]] in the closed form the documentation of
    [Hash] gives: [h1 + i*h2 + (i*i*i - i)/6], reduced modulo [N]. *)
Definition Hash_closed_form (N h1 h2 i : Z) : Z :=
  (h1 + i * h2 + (i * i * i - i) / 6) mod N.

(** ** main.cc *)

(** [x * y] on [std::size_t]. *)
Definition mul (x y : Z) : Z := to_size_t (x * y).

(** The C library function [atoi], with a result of type [int]. *)
Class Libc := {
  atoi : string -> Z;
  atoi_range : forall s, - 2 ^ 31 <= atoi s < 2 ^ 31
}.

Module main.

(** [TotalSize]: a [std::set<std::string>] is the list of its elements in
    iteration order; [str.size()] is the length of the string. *)
Fixpoint TotalSize_loop (set : list string) (total_size : Z) : Z :=
  match set with
  | [] => total_size
  | str :: rest =>
      TotalSize_loop rest
        (add total_size (mul (add (Z.of_nat (String.length str)) 1) 8))
  end.

Definition TotalSize (set : list string) : Z := TotalSize_loop set 0.

(** The output parameters of [ParseArguments]; [seed] is a
    [std::optional<std::uint32_t>]. *)
Record ParsedArguments := mkParsedArguments {
  log2_num_bits : Z;
  num_entries : Z;
  num_challenges : Z;
  seed : option Z
}.

(** [argv[i]], read only for [i < argc]. *)
Definition argv_at (argv : list string) (i : nat) : string :=
  default EmptyString (argv !! i).

Section WithLibc.
Context `{Libc}.

(** [argv] holds the [argc] arguments; [out] is what the output
    parameters hold before the call.  The text [ShowHelp] writes to
    [std::cout] is not modelled. *)
Definition ParseArguments (argv : list string) (out : ParsedArguments)
    : bool * ParsedArguments :=
  let argc := Z.of_nat (length argv) in
  if (1 <? argc)
     && (String.eqb (argv_at argv 1) "--help"
         || String.eqb (argv_at argv 1) "-h")
  then (true, out)
  else
    let kDefaultLog2NumBits := 13 in
    let log2_num_bits :=
      if 1 <? argc then to_size_t (atoi (argv_at argv 1))
      else kDefaultLog2NumBits in
    let kDefaultNumEntries := 1024 in
    let num_entries :=
      if 2 <? argc then
        let value := to_size_t (atoi (argv_at argv 2)) in
        if 0 <? value then value else kDefaultNumEntries
      else kDefaultNumEntries in
    let kDefaultNumChallenges := 1024 in
    let num_challenges :=
      if 3 <? argc then
        let value := atoi (argv_at argv 3) in
        if 0 <? value then to_size_t value else kDefaultNumChallenges
      else kDefaultNumChallenges in
    let seed :=
      if 4 <? argc then Some (atoi (argv_at argv 4) mod 2 ^ 32)
      else None in
    (false, mkParsedArguments log2_num_bits num_entries num_challenges seed).

End WithLibc.

Section WithElement.
Context `{Platform} {T : Type} `{Element T}.

(** The loop of [main] that fills the filter:
    [for (auto&& entry : test_set) bf.Insert(entry);]. *)
Fixpoint insert_loop (test_set : list T) : method unit :=
  match test_set with
  | [] => ret tt
  | entry :: rest => Insert entry ;;; insert_loop rest
  end.

(** The two counting loops of [main]:
    [if (bf.Contains(entry)) count++;] over a set. *)
Fixpoint count_loop (set : list T) (count : Z) : method Z :=
  match set with
  | [] => ret count
  | entry :: rest =>
      let* contained := Contains entry in
      count_loop rest (if contained then add count 1 else count)
  end.

End WithElement.

End main.

(** The number of [char]s the strings of [set] occupy, each with its
    terminating null character. *)
Definition chars_with_terminators (set : list string) : Z :=
  fold_right (fun str acc => Z.of_nat (String.length str) + 1 + acc) 0 set.

(** *** An [atoi] used to run the model of [ParseArguments] *)

(** The value of the leading decimal digits of [s], continuing from
    [acc]. *)
Fixpoint digits_value (s : string) (acc : Z) : Z :=
  match s with
  | EmptyString => acc
  | String c rest =>
      let code := Z.of_N (N_of_ascii c) in
      if (48 <=? code) && (code <=? 57)
      then digits_value rest (acc * 10 + (code - 48))
      else acc
  end.

(** Reduction into [int] (32 bits, two's complement). *)
Definition to_int (x : Z) : Z := (x + 2 ^ 31) mod 2 ^ 32 - 2 ^ 31.

(** [atoi] on a text made of an optional sign followed by digits (the
    leading white space that the C function skips is not handled); a value
    out of the range of [int] is wrapped. *)
Definition decimal_atoi (s : string) : Z :=
  to_int
    match s with
    | String "-"%char rest => - digits_value rest 0
    | String "+"%char rest => digits_value rest 0
    | _ => digits_value s 0
    end.

Definition decimal_Libc : Libc :=
  {| atoi := decimal_atoi;
     atoi_range s :=
       ltac:(unfold decimal_atoi, to_int;
             match goal with
             | |- _ <= ?x mod ?m - _ < _ =>
                 pose proof (Z.mod_pos_bound x m eq_refl)
             end;
             change (2 ^ 32) with 4294967296 in *;
             change (2 ^ 31) with 2147483648 in *; lia) |}.

(** *** Real numbers used to state the rounding lemmas *)

(** The real number [2^e]. *)
Definition bpow (e : Z) : R := powerRZ 2 e.

(** The [n]-th term and the [n]-th partial sum of the series
    [1 - a + a^2/2! - a^3/3! + ...] of [exp (- a)], over the rationals, so
    that bounds on ln 2 can be computed. *)
Fixpoint exp_neg_partial_Q (a : Q) (n : nat) : Q * Q :=
  match n with
  | O => (1%Q, 1%Q)
  | S n' =>
      let '(t, s) := exp_neg_partial_Q a n' in
      let t' := (- t * a / inject_Z (Z.of_nat n))%Q in
      (t', (s + t')%Q)
  end.

(** ** Lemmas on machine arithmetic *)

Lemma size_t_modulus_eq : size_t_modulus = 2 ^ 64.
Proof. reflexivity. Qed.

Lemma size_t_modulus_pos : 0 < size_t_modulus.
Proof. rewrite size_t_modulus_eq. apply Z.pow_pos_nonneg; lia. Qed.

Lemma to_size_t_range x : is_size_t (to_size_t x).
Proof. apply Z.mod_pos_bound, size_t_modulus_pos. Qed.

Lemma to_size_t_small x : is_size_t x -> to_size_t x = x.
Proof. intros Hx. apply Z.mod_small, Hx. Qed.

Lemma to_size_t_add_l x y : to_size_t (to_size_t x + y) = to_size_t (x + y).
Proof.
  unfold to_size_t. apply Z.add_mod_idemp_l.
  pose proof size_t_modulus_pos; lia.
Qed.

Lemma to_size_t_add_r x y : to_size_t (x + to_size_t y) = to_size_t (x + y).
Proof.
  unfold to_size_t. apply Z.add_mod_idemp_r.
  pose proof size_t_modulus_pos; lia.
Qed.

Lemma shl_mul x n : 0 <= n -> shl x n = to_size_t (x * 2 ^ n).
Proof. intros Hn. unfold shl. now rewrite Z.shiftl_mul_pow2. Qed.

(** ** Djb2 *)

Section Djb2Facts.
Context `{Platform}.

Lemma Djb2_step hash c :
  add (add (shl hash 5) hash) (to_size_t (hash.char_value c))
  = (hash * 33 + hash.char_value c) mod 2 ^ 64.
Proof.
  unfold add. rewrite shl_mul by lia.
  rewrite to_size_t_add_r, to_size_t_add_l, <- Z.add_assoc, to_size_t_add_l.
  unfold to_size_t. rewrite size_t_modulus_eq.
  f_equal. change (2 ^ 5) with 32. lia.
Qed.

Lemma Djb2_loop_fold str hash :
  hash.Djb2_loop str hash
  = fold_left (fun h c => (h * 33 + hash.char_value c) mod 2 ^ 64)
              (list_ascii_of_string str) hash.
Proof.
  revert hash. induction str as [|c rest IH]; intros hash; simpl.
  - reflexivity.
  - rewrite IH. now rewrite Djb2_step.
Qed.

Lemma Djb2_loop_range str hash :
  is_size_t hash -> is_size_t (hash.Djb2_loop str hash).
Proof.
  revert hash. induction str as [|c rest IH]; intros hash Hh; simpl.
  - exact Hh.
  - apply IH. apply to_size_t_range.
Qed.

Lemma Djb2_range str : is_size_t (hash.Djb2 str).
Proof.
  apply Djb2_loop_range. unfold is_size_t, hash.kHashDjb2.
  rewrite size_t_modulus_eq. split; [lia|]. reflexivity.
Qed.

(** A byte below 128 has the same value whatever the signedness of
    [char]; with an unsigned [char] every byte has. *)
Lemma char_value_unsigned c :
  char_is_signed = false \/ (N_of_ascii c < 128)%N ->
  hash.char_value c = Z.of_N (N_of_ascii c).
Proof.
  unfold hash.char_value. intros [-> | Hc]; [reflexivity|].
  destruct (128 <=? Z.of_N (N_of_ascii c)) eqn:E.
  - apply Z.leb_le in E. lia.
  - now rewrite andb_false_r.
Qed.
End Djb2Facts.

(** For text whose [char]s are all non-negative (every ASCII text; every
    text when plain [char] is unsigned) the byte added is the byte's
    unsigned value. *)
Lemma Djb2_unsigned_bytes `{Platform} (str : string) :
  char_is_signed = false
    \/ Forall (fun c => (N_of_ascii c < 128)%N) (list_ascii_of_string str) ->
  hash.Djb2 str = hash.Djb2_spec str.
Proof.
  intros Hs. unfold hash.Djb2, hash.Djb2_spec. rewrite Djb2_loop_fold.
  unfold hash.kHashDjb2. generalize 5381.
  induction (list_ascii_of_string str) as [|c l IH]; intros h; simpl.
  - reflexivity.
  - rewrite char_value_unsigned.
    + apply IH. destruct Hs as [Hs|Hs]; [now left|right].
      now inversion Hs.
    + destruct Hs as [Hs|Hs]; [now left|right]. now inversion Hs.
Qed.

(** C9, as the code has it.  [Djb2] is a total function of its input
    alone: on the empty string it returns the seed 5381; on every string it
    returns a machine word, the fold of [hash = hash*33 + c] from 5381 in
    arithmetic modulo 2^64, where [c] is the value of the [char]
    converted to [std::size_t].  For a string whose bytes are all below
    128, and for every string where plain [char] is unsigned, that is the
    fold of [hash = hash*33 + byte] over the bytes of the string; where
    plain [char] is signed a byte [b >= 128] enters as [b - 256]. *)
Theorem Djb2_contract `{Platform} :
  hash.Djb2 EmptyString = 5381
  /\ forall str : string,
       0 <= hash.Djb2 str < 2 ^ 64
       /\ hash.Djb2 str
          = fold_left
              (fun h c =>
                 (h * 33
                  + (let b := Z.of_N (N_of_ascii c) in
                     if char_is_signed && (128 <=? b) then b - 256 else b))
                 mod 2 ^ 64)
              (list_ascii_of_string str) 5381
       /\ (char_is_signed = false
           \/ Forall (fun c => (N_of_ascii c < 128)%N)
                     (list_ascii_of_string str) ->
           hash.Djb2 str = hash.Djb2_spec str).
Proof.
  split; [reflexivity|]. intros str. split; [|split].
  - apply Djb2_range.
  - unfold hash.Djb2. apply Djb2_loop_fold.
  - apply Djb2_unsigned_bytes.
Qed.

Lemma Djb2_contract_witness :
  Forall (fun c => (N_of_ascii c < 128)%N) (list_ascii_of_string "abc")
  /\ @hash.Djb2 linux_x86_64 "abc" = hash.Djb2_spec "abc".
Proof.
  assert (Forall (fun c => (N_of_ascii c < 128)%N)
                 (list_ascii_of_string "abc")) as Habc.
  { repeat (constructor; [reflexivity|]). constructor. }
  split; [exact Habc|].
  destruct (@Djb2_contract linux_x86_64) as [_ Hstr].
  destruct (Hstr "abc"%string) as (_ & _ & Hbytes).
  apply Hbytes. right. exact Habc.
Defined.

(** The claim as the specification has it fails where plain [char] is
    signed: on the one-byte string 0xFF, [Djb2] adds
    [static_cast<std::size_t>(char(-1))], which is 2^64 - 1, and returns
    5381 * 33 - 1 = 177572; the recurrence over the byte 255 gives
    5381 * 33 + 255 = 177828. *)
Lemma Djb2_signed_char_differs :
  let str := String (ascii_of_N 255) EmptyString in
  @hash.Djb2 linux_x86_64 str = 177572
  /\ hash.Djb2_spec str = 177828
  /\ @hash.Djb2 linux_x86_64 str <> hash.Djb2_spec str.
Proof.
  intros str. split; [reflexivity|]. split; [reflexivity|]. discriminate.
Qed.

(** ** Error flags *)

Lemma testbit_1 n : 0 <= n -> Z.testbit 1 n = (0 =? n).
Proof. intros Hn. change 1 with (2 ^ 0). now apply Z.pow2_bits_eqb. Qed.

Lemma testbit_2 n : 0 <= n -> Z.testbit 2 n = (1 =? n).
Proof. intros Hn. change 2 with (2 ^ 1). now apply Z.pow2_bits_eqb. Qed.

Ltac by_bits :=
  apply Z.bits_inj'; intros n Hn;
  rewrite ?Z.land_spec, ?Z.lor_spec, ?Z.lnot_spec, ?testbit_1, ?testbit_2,
    ?Z.bits_0 by lia;
  repeat match goal with
         | |- context [?a =? ?b] => destruct (Z.eqb_spec a b); try lia
         end;
  simpl; rewrite ?andb_false_r, ?andb_true_r, ?orb_false_r, ?orb_true_r;
  try reflexivity.

Lemma flag_set_1 f : Z.land (Z.lor f 1) 1 = 1.
Proof. by_bits. Qed.

Lemma flag_set_2 f : Z.land (Z.lor f 2) 2 = 2.
Proof. by_bits. Qed.

Lemma flag_clear_1 f : Z.land (Z.land f (Z.lnot 1)) 1 = 0.
Proof. by_bits. Qed.

Lemma flag_clear_2 f : Z.land (Z.land f (Z.lnot 2)) 2 = 0.
Proof. by_bits. Qed.

Lemma flag_set_2_other f : Z.land (Z.lor f 2) 1 = Z.land f 1.
Proof. by_bits. Qed.

Lemma flag_clear_2_other f : Z.land (Z.land f (Z.lnot 2)) 1 = Z.land f 1.
Proof. by_bits. Qed.

Lemma flag_clear_2_idemp f :
  Z.land (Z.land f (Z.lnot 2)) (Z.lnot 2) = Z.land f (Z.lnot 2).
Proof. now rewrite <- Z.land_assoc, Z.land_diag. Qed.

Lemma flag_set_clear_2 f : Z.land (Z.lor f 2) (Z.lnot 2) = Z.land f (Z.lnot 2).
Proof. by_bits. Qed.

(** ** The double arithmetic of SetOptimalNumHashes *)

(** *** Powers of two *)

Lemma bpow_pos e : (0 < bpow e)%R.
Proof. apply powerRZ_lt. lra. Qed.

Lemma bpow_add a b : bpow (a + b) = (bpow a * bpow b)%R.
Proof. apply powerRZ_add. lra. Qed.

Lemma bpow_opp a : bpow (- a) = (/ bpow a)%R.
Proof. apply powerRZ_neg'. Qed.

Lemma bpow_sub a b : bpow (a - b) = (bpow a / bpow b)%R.
Proof. unfold Z.sub. rewrite bpow_add, bpow_opp. reflexivity. Qed.

Lemma bpow_Z k : 0 <= k -> bpow k = IZR (2 ^ k).
Proof.
  intros Hk. unfold bpow. rewrite <- (Z2Nat.id k Hk) at 1 2.
  rewrite <- pow_powerRZ, <- pow_IZR. reflexivity.
Qed.

Lemma bpow_num k : 0 <= k -> bpow k = IZR (2 ^ k) /\ (0 < IZR (2 ^ k))%R.
Proof.
  intros Hk. split; [now apply bpow_Z|].
  apply IZR_lt, Z.pow_pos_nonneg; lia.
Qed.

Lemma bpow_ge_1 k : 0 <= k -> (1 <= bpow k)%R.
Proof.
  intros Hk. rewrite bpow_Z by assumption. apply IZR_le.
  pose proof (Z.pow_pos_nonneg 2 k). lia.
Qed.

Lemma bpow_le a b : a <= b -> (bpow a <= bpow b)%R.
Proof.
  intros Hab. replace b with (a + (b - a)) by lia. rewrite bpow_add.
  pose proof (bpow_pos a). pose proof (bpow_ge_1 (b - a) ltac:(lia)). nra.
Qed.

Lemma bpow_lt a b : a < b -> (bpow a < bpow b)%R.
Proof.
  intros Hab. replace b with (a + 1 + (b - a - 1)) by lia.
  rewrite !bpow_add. change (bpow 1) with (2 * 1)%R.
  pose proof (bpow_pos a). pose proof (bpow_ge_1 (b - a - 1) ltac:(lia)). nra.
Qed.

Lemma bpow_lt_inv a b : (bpow a < bpow b)%R -> a < b.
Proof.
  intros Hlt. destruct (Z_lt_le_dec a b) as [|Hle]; [assumption|].
  apply bpow_le in Hle. lra.
Qed.

Lemma scale_ratio e :
  (IZR (2 ^ Z.max 0 (- e)) / IZR (2 ^ Z.max 0 e) = bpow (- e))%R.
Proof.
  rewrite <- !bpow_Z by lia. destruct (Z_le_gt_dec 0 e).
  - rewrite Z.max_l, Z.max_r by lia. change (bpow 0) with 1%R.
    rewrite bpow_opp. field. pose proof (bpow_pos e). lra.
  - rewrite Z.max_r, Z.max_l by lia. change (bpow 0) with 1%R. field.
Qed.

Lemma pow2_pos k : 0 < 2 ^ Z.max 0 k.
Proof. apply Z.pow_pos_nonneg; lia. Qed.

(** The two integers that [b64_round] divides have the quotient
    [num / den * 2^-e]. *)
Lemma scaled_quotient num den e :
  0 < den ->
  (IZR (num * 2 ^ Z.max 0 (- e)) / IZR (den * 2 ^ Z.max 0 e)
   = IZR num / IZR den * bpow (- e))%R.
Proof.
  intros Hd. rewrite <- scale_ratio, !mult_IZR.
  pose proof (pow2_pos e) as H1. apply IZR_lt in H1.
  apply IZR_lt in Hd. field. split; lra.
Qed.

Lemma Rabs_le_both a b : (Rabs a <= b)%R -> (- b <= a <= b)%R.
Proof.
  intros Hab. unfold Rabs in Hab. destruct (Rcase_abs a); lra.
Qed.

Lemma floor_unique (t k : Z) (y : R) :
  (IZR t <= y < IZR t + 1)%R -> (IZR k <= y < IZR k + 1)%R -> t = k.
Proof.
  intros [Ht1 Ht2] [Hk1 Hk2].
  assert (IZR t < IZR (k + 1))%R as H1 by (rewrite plus_IZR; lra).
  assert (IZR k < IZR (t + 1))%R as H2 by (rewrite plus_IZR; lra).
  apply lt_IZR in H1, H2. lia.
Qed.

(** *** Rounding to nearest *)

Lemma nearest_even_error n d :
  0 < d ->
  2 * Z.abs (nearest_even n d * d - n) <= d
  /\ ((d | n) -> nearest_even n d * d = n).
Proof.
  intros Hd. unfold nearest_even.
  pose proof (Z.div_mod n d ltac:(lia)) as E.
  pose proof (Z.mod_pos_bound n d Hd) as Hr.
  split.
  - destruct (Z.ltb_spec (2 * (n mod d)) d);
      [|destruct (Z.ltb_spec d (2 * (n mod d))); [|destruct (Z.even (n / d))]];
      nia.
  - intros Hdiv. apply Z.mod_divide in Hdiv; [|lia].
    rewrite Hdiv in *. destruct (Z.ltb_spec (2 * 0) d); nia.
Qed.

Lemma nearest_even_R n d :
  0 < d ->
  (Rabs (IZR (nearest_even n d) - IZR n / IZR d) <= / 2)%R.
Proof.
  intros Hd. destruct (nearest_even_error n d Hd) as [He _].
  set (m := nearest_even n d) in *.
  assert (0 < IZR d)%R as HdR by now apply IZR_lt.
  replace (IZR m - IZR n / IZR d)%R with (IZR (m * d - n) / IZR d)%R
    by (rewrite minus_IZR, mult_IZR; field; lra).
  unfold Rdiv. rewrite Rabs_mult, (Rabs_pos_eq (/ IZR d))
    by (left; now apply Rinv_0_lt_compat).
  rewrite <- abs_IZR.
  assert (2 * IZR (Z.abs (m * d - n)) <= IZR d)%R as H2.
  { rewrite <- mult_IZR. now apply IZR_le. }
  apply Rmult_le_reg_r with (IZR d); [assumption|].
  rewrite Rmult_assoc, Rinv_l by lra. lra.
Qed.

Lemma log2_R a : 0 < a -> (bpow (Z.log2 a) <= IZR a < bpow (Z.log2 a + 1))%R.
Proof.
  intros Ha. pose proof (Z.log2_spec a Ha) as [H1 H2].
  pose proof (Z.log2_nonneg a).
  rewrite !bpow_Z by lia. split; [now apply IZR_le | now apply IZR_lt].
Qed.

(** [b64_round num den] for a positive rational [x = num / den]. *)
Section Rounding.
Variables num den : Z.
Variable x : R.
Hypothesis Hnum : 0 < num.
Hypothesis Hden : 0 < den.
Hypothesis Hx : x = (IZR num / IZR den)%R.

Lemma x_pos : (0 < x)%R.
Proof using Hnum Hden Hx.
  rewrite Hx. clear Hx. apply IZR_lt in Hnum, Hden.
  apply Rdiv_lt_0_compat; assumption.
Qed.

Lemma exponent_test e0 :
  2 ^ 53 * (den * 2 ^ Z.max 0 e0) <= num * 2 ^ Z.max 0 (- e0)
  <-> (bpow (53 + e0) <= x)%R.
Proof using Hden Hx.
  pose proof (scaled_quotient num den e0 Hden) as Hs. rewrite <- Hx in Hs.
  assert (0 < den * 2 ^ Z.max 0 e0) as HD
    by (pose proof (pow2_pos e0); nia).
  apply IZR_lt in HD.
  set (n' := num * 2 ^ Z.max 0 (- e0)) in *.
  set (d' := den * 2 ^ Z.max 0 e0) in *.
  assert (IZR n' = x * bpow (- e0) * IZR d')%R as En.
  { rewrite <- Hs. field. lra. }
  rewrite bpow_add. pose proof (bpow_pos e0) as Hp.
  assert (bpow (- e0) * bpow e0 = 1)%R as Einv
    by (rewrite bpow_opp; field; lra).
  rewrite (bpow_Z 53) by lia.
  split.
  - intros Hz. apply IZR_le in Hz. rewrite mult_IZR, En in Hz.
    assert (IZR (2 ^ 53) <= x * bpow (- e0))%R by nra.
    nra.
  - intros Hr. apply le_IZR. rewrite mult_IZR, En.
    assert (IZR (2 ^ 53) <= x * bpow (- e0))%R by nra.
    nra.
Qed.

Lemma raw_exponent_range :
  (bpow (52 + b64_raw_exponent num den) <= x
   < bpow (53 + b64_raw_exponent num den))%R.
Proof using Hnum Hden Hx.
  unfold b64_raw_exponent.
  set (e0 := Z.log2 num - Z.log2 den - 53).
  pose proof (log2_R num Hnum) as [Hn1 Hn2].
  pose proof (log2_R den Hden) as [Hd1 Hd2].
  assert (0 < IZR den)%R as HdR by now apply IZR_lt.
  assert (IZR num = x * IZR den)%R as Ex by (rewrite Hx; field; lra).
  assert (bpow (52 + e0) < x)%R as Hlo.
  { replace (Z.log2 num) with ((52 + e0) + (Z.log2 den + 1)) in Hn1
      by (unfold e0; lia).
    rewrite bpow_add in Hn1.
    pose proof (bpow_pos (52 + e0)). pose proof (bpow_pos (Z.log2 den + 1)).
    nra. }
  assert (x < bpow (54 + e0))%R as Hhi.
  { replace (Z.log2 num + 1) with ((54 + e0) + Z.log2 den) in Hn2
      by (unfold e0; lia).
    rewrite bpow_add in Hn2.
    pose proof (bpow_pos (54 + e0)). pose proof (bpow_pos (Z.log2 den)).
    pose proof x_pos. nra. }
  destruct (Z.leb_spec (2 ^ 53 * (den * 2 ^ Z.max 0 e0))
                       (num * 2 ^ Z.max 0 (- e0))) as [Ht|Ht].
  - apply exponent_test in Ht.
    replace (52 + (e0 + 1)) with (53 + e0) by lia.
    replace (53 + (e0 + 1)) with (54 + e0) by lia. lra.
  - assert (~ (bpow (53 + e0) <= x)%R) as Hn
      by (intros Hc; apply exponent_test in Hc; lia).
    lra.
Qed.

(** Away from the subnormal numbers and from overflow the result is
    finite, [m * 2^e] with [2^52 * 2^e <= x < 2^53 * 2^e], at most half a
    unit in the last place from [x], and [x] itself where [x] is a
    multiple of [2^e]. *)
Lemma b64_round_spec :
  (bpow (-1000) <= x < bpow 900)%R ->
  exists m e,
    b64_round num den = B64_finite m e
    /\ (bpow (52 + e) <= x < bpow (53 + e))%R
    /\ (Rabs (IZR m * bpow e - x) <= bpow e / 2)%R
    /\ (forall j : Z, x = (IZR j * bpow e)%R -> m = j).
Proof using Hnum Hden Hx.
  intros [Hxlo Hxhi].
  pose proof raw_exponent_range as [Hr1 Hr2].
  assert (-1053 < b64_raw_exponent num den) as He1.
  { assert (bpow (-1000) < bpow (53 + b64_raw_exponent num den))%R as Hlt
      by lra.
    apply bpow_lt_inv in Hlt. lia. }
  assert (b64_raw_exponent num den < 848) as He2.
  { assert (bpow (52 + b64_raw_exponent num den) < bpow 900)%R as Hlt by lra.
    apply bpow_lt_inv in Hlt. lia. }
  unfold b64_round. destruct (Z.eqb_spec num 0); [lia|].
  assert (b64_exponent num den = b64_raw_exponent num den) as ->
    by (unfold b64_exponent; lia).
  set (e := b64_raw_exponent num den) in *.
  set (n' := num * 2 ^ Z.max 0 (- e)).
  set (d' := den * 2 ^ Z.max 0 e).
  assert (0 < d') as Hd' by (unfold d'; pose proof (pow2_pos e); nia).
  destruct (Z.ltb_spec 971 e); [lia|].
  destruct (Z.eqb_spec e 971); [lia|]. cbn [orb andb].
  exists (nearest_even n' d'), e. split; [reflexivity|].
  split; [split; assumption|].
  pose proof (scaled_quotient num den e Hden) as Hs.
  fold n' d' in Hs. rewrite <- Hx in Hs.
  pose proof (bpow_pos e) as Hp.
  assert (bpow (- e) * bpow e = 1)%R as Einv
    by (rewrite bpow_opp; field; lra).
  split.
  - pose proof (nearest_even_R n' d' Hd') as Herr. rewrite Hs in Herr.
    replace (IZR (nearest_even n' d') * bpow e - x)%R
      with ((IZR (nearest_even n' d') - x * bpow (- e)) * bpow e)%R
      by (rewrite Rmult_minus_distr_r, Rmult_assoc, Einv; ring).
    rewrite Rabs_mult, (Rabs_pos_eq (bpow e)) by lra. nra.
  - intros j Hj.
    destruct (nearest_even_error n' d' Hd') as [_ Hex].
    assert (n' = j * d') as En.
    { apply eq_IZR. rewrite mult_IZR.
      apply IZR_lt in Hd'.
      assert (IZR n' = x * bpow (- e) * IZR d')%R as ->
        by (rewrite <- Hs; field; lra).
      assert (x * bpow (- e) = IZR j)%R as ->; [|ring].
      rewrite Hj, Rmult_assoc, (Rmult_comm (bpow e)), Einv. ring. }
    specialize (Hex ltac:(exists j; exact En)). nia.
Qed.

(** A number with a mantissa of at most 53 bits is not changed. *)
Lemma b64_round_exact (A B : Z) :
  (bpow (-1000) <= x < bpow 900)%R ->
  0 < A < 2 ^ 53 ->
  x = (IZR A * bpow B)%R ->
  exists m e, b64_round num den = B64_finite m e
              /\ (IZR m * bpow e = x)%R.
Proof using Hnum Hden Hx.
  intros Hb HA Ex.
  destruct (b64_round_spec Hb) as (m & e & Er & [Hlo _] & _ & Hex).
  exists m, e. split; [exact Er|].
  assert (e <= B) as HeB.
  { assert (IZR A < bpow 53)%R as HA'
      by (rewrite bpow_Z by lia; apply IZR_lt; lia).
    assert (bpow (52 + e) < bpow (53 + B))%R as Hlt.
    { rewrite (bpow_add 53 B). pose proof (bpow_pos B).
      rewrite Ex in Hlo. nra. }
    apply bpow_lt_inv in Hlt. lia. }
  rewrite (Hex (A * 2 ^ (B - e))); [|].
  - rewrite mult_IZR, <- bpow_Z by lia. rewrite Ex, Rmult_assoc.
    rewrite <- bpow_add. do 2 f_equal. lia.
  - rewrite mult_IZR, <- bpow_Z by lia. rewrite Ex, Rmult_assoc.
    rewrite <- bpow_add. do 2 f_equal. lia.
Qed.

End Rounding.

(** The relative error of a rounding is at most [2^-53]. *)
Lemma b64_round_rel num den :
  0 < num -> 0 < den ->
  (bpow (-1000) <= IZR num / IZR den < bpow 900)%R ->
  exists m e,
    b64_round num den = B64_finite m e
    /\ 0 < m
    /\ (IZR num / IZR den * (1 - / IZR (2 ^ 53)) <= IZR m * bpow e
        <= IZR num / IZR den * (1 + / IZR (2 ^ 53)))%R
    /\ (forall A B : Z, 0 < A < 2 ^ 53 ->
          (IZR num / IZR den = IZR A * bpow B)%R ->
          (IZR m * bpow e = IZR num / IZR den)%R).
Proof.
  intros Hn Hd Hb.
  destruct (b64_round_spec num den _ Hn Hd eq_refl Hb)
    as (m & e & Er & [Hlo Hhi] & Herr & _).
  exists m, e. split; [exact Er|].
  pose proof (x_pos num den _ Hn Hd eq_refl) as Hxp.
  set (x := (IZR num / IZR den)%R) in *.
  rewrite bpow_add, (bpow_Z 52) in Hlo by lia.
  apply Rabs_le_both in Herr.
  pose proof (bpow_pos e) as Hp.
  change (2 ^ 53) with 9007199254740992.
  change (2 ^ 52) with 4503599627370496 in Hlo.
  assert (x * (1 - / 9007199254740992) <= IZR m * bpow e
          <= x * (1 + / 9007199254740992))%R as Hrel.
  { set (Y := (IZR m * bpow e)%R) in *. lra. }
  split.
  - apply lt_IZR. nra.
  - split; [exact Hrel|].
    intros A B HA EA.
    destruct (b64_round_exact num den _ Hn Hd eq_refl A B Hb HA EA)
      as (m' & e2 & Er' & EY).
    rewrite Er in Er'. injection Er' as <- <-. exact EY.
Qed.

(** The truncation of [static_cast<int>] is the floor. *)
Lemma truncation_floor m e :
  0 <= m ->
  let t := if 0 <=? e then m * 2 ^ e else m / 2 ^ (- e) in
  (IZR t <= IZR m * bpow e < IZR t + 1)%R.
Proof.
  intros Hm t. subst t. destruct (Z.leb_spec 0 e).
  - rewrite mult_IZR, <- bpow_Z by assumption. lra.
  - assert (0 < 2 ^ (- e)) as Hp by (apply Z.pow_pos_nonneg; lia).
    pose proof (Z.div_mod m (2 ^ (- e)) ltac:(lia)) as E.
    pose proof (Z.mod_pos_bound m (2 ^ (- e)) Hp) as Hr.
    set (q := m / 2 ^ (- e)) in *. set (r := m mod 2 ^ (- e)) in *.
    assert (bpow e = / bpow (- e))%R as ->
      by (rewrite <- bpow_opp; f_equal; lia).
    rewrite bpow_Z by lia. apply IZR_lt in Hp.
    assert (IZR m = IZR (2 ^ (- e)) * IZR q + IZR r)%R as Em
      by (rewrite <- mult_IZR, <- plus_IZR; now f_equal).
    destruct Hr as [Hr1 Hr2]. apply IZR_le in Hr1. apply IZR_lt in Hr2.
    set (P := IZR (2 ^ (- e))) in *.
    assert (IZR m * / P = IZR q + IZR r * / P)%R as ->
      by (rewrite Em; field; lra).
    assert (0 <= IZR r * / P < 1)%R.
    { assert (0 < / P)%R by now apply Rinv_0_lt_compat.
      split; [nra|]. apply Rmult_lt_reg_r with P; [assumption|].
      rewrite Rmult_assoc, Rinv_l by lra. lra. }
    lra.
Qed.

(** The result of [static_cast<int>] is an [int]. *)
Lemma b64_to_int_range `{Platform} x : - 2 ^ 31 <= b64_to_int x < 2 ^ 31.
Proof.
  unfold b64_to_int. destruct x as [m e| |];
    try apply out_of_range_to_int_range.
  cbv zeta.
  destruct (Z.leb_spec 0 (if 0 <=? e then m * 2 ^ e else m / 2 ^ (- e)));
    cbn [andb]; [|apply out_of_range_to_int_range].
  destruct (Z.ltb_spec (if 0 <=? e then m * 2 ^ e else m / 2 ^ (- e))
                       (2 ^ 31));
    [lia | apply out_of_range_to_int_range].
Qed.

(** *** ln 2 *)

Section Ln2.
Local Open Scope R_scope.

Lemma tg_alt_term (a : R) (n : nat) :
  tg_alt (fun i => a ^ i / INR (fact i)) (S n)
  = - tg_alt (fun i => a ^ i / INR (fact i)) n * a / INR (S n).
Proof.
  unfold tg_alt. rewrite fact_simpl, mult_INR. simpl pow.
  field. split; [apply INR_fact_neq_0 | apply not_0_INR; discriminate].
Qed.

Lemma exp_neg_partial_Q_correct (a : Q) (n : nat) :
  Q2R (fst (exp_neg_partial_Q a n))
  = tg_alt (fun i => Q2R a ^ i / INR (fact i)) n
  /\ Q2R (snd (exp_neg_partial_Q a n))
     = sum_f_R0 (tg_alt (fun i => Q2R a ^ i / INR (fact i))) n.
Proof.
  induction n as [|n [IHt IHs]].
  - cbn. unfold tg_alt. cbn. split; unfold Q2R; cbn; field.
  - cbn [exp_neg_partial_Q]. destruct (exp_neg_partial_Q a n) as [t s].
    cbn [fst snd] in *.
    assert (Q2R (- t * a / inject_Z (Z.of_nat (S n)))
            = tg_alt (fun i => Q2R a ^ i / INR (fact i)) (S n)) as Et.
    { rewrite tg_alt_term, <- IHt.
      unfold Qdiv. rewrite Q2R_mult, Q2R_mult, Q2R_opp, Q2R_inv.
      - unfold Rdiv. f_equal. f_equal. unfold Q2R. cbn [Qnum Qden inject_Z].
        rewrite INR_IZR_INZ. field.
      - intros E. unfold Qeq in E. cbn in E. lia. }
    split; [exact Et|].
    rewrite Q2R_plus, Et, IHs. reflexivity.
Qed.

(** The partial sums of the alternating series enclose [exp (- a)]. *)
Lemma exp_neg_series (a : R) (N : nat) :
  0 <= a <= 1 ->
  sum_f_R0 (tg_alt (fun i => a ^ i / INR (fact i))) (S (2 * N))
  <= exp (- a)
  <= sum_f_R0 (tg_alt (fun i => a ^ i / INR (fact i))) (2 * N).
Proof.
  intros Ha. apply alternated_series_ineq.
  - intros n. rewrite fact_simpl, mult_INR. simpl pow.
    assert (0 < INR (fact n)) by apply INR_fact_lt_0.
    assert (1 <= INR (S n)) by (rewrite S_INR; pose proof (pos_INR n); lra).
    assert (0 <= a ^ n) by (apply pow_le; lra).
    unfold Rdiv. rewrite Rinv_mult.
    assert (0 < / INR (fact n)) by now apply Rinv_0_lt_compat.
    assert (0 < / INR (S n) <= 1).
    { split; [apply Rinv_0_lt_compat; lra|].
      rewrite <- Rinv_1. apply Rinv_le_contravar; lra. }
    assert (0 <= a ^ n * / INR (fact n)) by (apply Rmult_le_pos; lra).
    replace (a * a ^ n * (/ INR (S n) * / INR (fact n)))
      with ((a * / INR (S n)) * (a ^ n * / INR (fact n))) by ring.
    assert (0 <= a * / INR (S n) <= 1) by nra.
    nra.
  - apply cv_speed_pow_fact.
  - pose proof (proj2_sig (exist_exp (- a))) as Hexp.
    change (proj1_sig (exist_exp (- a))) with (exp (- a)) in Hexp.
    unfold exp_in, infinite_sum in Hexp. unfold Un_cv.
    intros eps Heps. destruct (Hexp eps Heps) as [n0 Hn0]. exists n0.
    intros n Hn. specialize (Hn0 n Hn).
    replace (sum_f_R0 (tg_alt (fun i => a ^ i / INR (fact i))) n)
      with (sum_f_R0 (fun i => / INR (fact i) * (- a) ^ i) n); [exact Hn0|].
    apply sum_eq. intros i _. unfold tg_alt.
    replace (- a) with (-1 * a) by ring. rewrite Rpow_mult_distr. field.
    apply INR_fact_neq_0.
Qed.

(** ln 2 lies between [ln2_binary64 * 2^-53] and the midpoint to the next
    binary64 number: [std_log_2] is ln 2 rounded to nearest. *)
Lemma ln2_enclosure :
  IZR (2 * ln2_binary64) / IZR (2 ^ 54)
  < ln 2
  < IZR (2 * ln2_binary64 + 1) / IZR (2 ^ 54).
Proof.
  set (lo := (2 * ln2_binary64 # 18014398509481984)%Q).
  set (hi := (2 * ln2_binary64 + 1 # 18014398509481984)%Q).
  change (IZR (2 * ln2_binary64) / IZR (2 ^ 54)) with (Q2R lo).
  change (IZR (2 * ln2_binary64 + 1) / IZR (2 ^ 54)) with (Q2R hi).
  assert (0 <= Q2R lo <= 1) as Rlo.
  { unfold lo, Q2R, ln2_binary64. clear. cbn [Qnum Qden].
    change (2 * 6243314768165359)%Z with 12486629536330718%Z. lra. }
  assert (0 <= Q2R hi <= 1) as Rhi.
  { unfold hi, Q2R, ln2_binary64. clear. cbn [Qnum Qden].
    change (2 * 6243314768165359 + 1)%Z with 12486629536330719%Z. lra. }
  assert (/ 2 < exp (- Q2R lo)) as Hlo.
  { eapply Rlt_le_trans; [|apply (exp_neg_series (Q2R lo) 11 Rlo)].
    rewrite <- (proj2 (exp_neg_partial_Q_correct lo (S (2 * 11)))).
    replace (/ 2) with (Q2R (1 # 2)) by (unfold Q2R; cbn; lra).
    apply Qlt_Rlt. vm_compute. reflexivity. }
  assert (exp (- Q2R hi) < / 2) as Hhi.
  { eapply Rle_lt_trans; [apply (exp_neg_series (Q2R hi) 11 Rhi)|].
    rewrite <- (proj2 (exp_neg_partial_Q_correct hi (2 * 11))).
    replace (/ 2) with (Q2R (1 # 2)) by (unfold Q2R; cbn; lra).
    apply Qlt_Rlt. vm_compute. reflexivity. }
  rewrite exp_Ropp in Hlo, Hhi.
  assert (exp (ln 2) = 2) as E2 by (apply exp_ln; lra).
  pose proof (exp_pos (Q2R lo)). pose proof (exp_pos (Q2R hi)).
  assert (exp (Q2R lo) * / exp (Q2R lo) = 1) by (apply Rinv_r; lra).
  assert (exp (Q2R hi) * / exp (Q2R hi) = 1) by (apply Rinv_r; lra).
  split; apply exp_lt_inv; rewrite E2; nra.
Qed.

Lemma ln2_bounds :
  IZR ln2_binary64 < ln 2 * IZR (2 ^ 53) < IZR ln2_binary64 + 1.
Proof.
  pose proof ln2_enclosure as [Hlo Hhi].
  unfold ln2_binary64 in *.
  change (2 * 6243314768165359)%Z with 12486629536330718%Z in *.
  change (12486629536330718 + 1)%Z with 12486629536330719%Z in *.
  change (2 ^ 54)%Z with 18014398509481984%Z in *.
  change (2 ^ 53)%Z with 9007199254740992%Z.
  lra.
Qed.

End Ln2.

(** *** The expression of SetOptimalNumHashes *)

(** [std::log(2) * NumBits()] is exact: the number of bits is a power of
    two, at most [2^33]. *)
Lemma mul_log_2_power_of_two e' :
  0 <= e' <= 33 ->
  b64_mul std_log_2 (b64_of_size_t (2 ^ e'))
  = B64_finite ln2_binary64 (e' - 53).
Proof.
  intros He.
  assert (e' = 0 \/ e' = 1 \/ e' = 2 \/ e' = 3 \/ e' = 4 \/ e' = 5 \/ e' = 6
          \/ e' = 7 \/ e' = 8 \/ e' = 9 \/ e' = 10 \/ e' = 11 \/ e' = 12
          \/ e' = 13 \/ e' = 14 \/ e' = 15 \/ e' = 16 \/ e' = 17 \/ e' = 18
          \/ e' = 19 \/ e' = 20 \/ e' = 21 \/ e' = 22 \/ e' = 23 \/ e' = 24
          \/ e' = 25 \/ e' = 26 \/ e' = 27 \/ e' = 28 \/ e' = 29 \/ e' = 30
          \/ e' = 31 \/ e' = 32 \/ e' = 33) as Hcases by lia.
  repeat (destruct Hcases as [-> | Hcases]; [vm_compute; reflexivity|]).
  subst. vm_compute. reflexivity.
Qed.

(** With [2^e'] bits and [mu] entries, [1 <= mu < 2^64]. *)
Section Optimum.
Context `{Platform}.
Variables e' mu : Z.
Hypothesis He' : 0 <= e' <= 33.
Hypothesis Hmu : 1 <= mu < 2 ^ 64.

Lemma cN_bounds :
  (/ 2 <= IZR ln2_binary64 * bpow (e' - 53) < IZR (2 ^ 33))%R.
Proof using He'.
  rewrite bpow_sub, (bpow_Z 53) by lia.
  pose proof (bpow_ge_1 e' ltac:(lia)) as H1.
  pose proof (bpow_le e' 33 ltac:(lia)) as H2.
  rewrite (bpow_Z 33) in H2 by lia.
  unfold ln2_binary64.
  change (2 ^ 53) with 9007199254740992.
  change (2 ^ 33) with 8589934592 in *.
  set (b := bpow e') in *.
  assert (6243314768165359 * (b / 9007199254740992)
          = b * (6243314768165359 / 9007199254740992))%R as -> by field.
  split; nra.
Qed.

Lemma kc_bounds :
  let k := ln2_binary64 * 2 ^ e' / (2 ^ 53 * mu) in
  0 <= k
  /\ (IZR k * IZR mu <= IZR ln2_binary64 * bpow (e' - 53)
      < (IZR k + 1) * IZR mu)%R.
Proof using He' Hmu.
  assert (0 < 2 ^ 53 * mu) as HD by lia.
  assert (0 < 2 ^ e') as HP by (apply Z.pow_pos_nonneg; lia).
  pose proof (Z.div_mod (ln2_binary64 * 2 ^ e') (2 ^ 53 * mu) ltac:(lia))
    as E.
  pose proof (Z.mod_pos_bound (ln2_binary64 * 2 ^ e') (2 ^ 53 * mu) HD)
    as Hr.
  intros k.
  assert (0 <= k) as Hk0.
  { subst k. apply Z.div_pos; [|assumption]. unfold ln2_binary64. lia. }
  split; [exact Hk0|].
  assert (IZR ln2_binary64 * bpow (e' - 53) * IZR (2 ^ 53)
          = IZR (ln2_binary64 * 2 ^ e'))%R as Ec.
  { rewrite bpow_sub, (bpow_Z 53), (bpow_Z e'), mult_IZR by lia.
    field. apply Rgt_not_eq, IZR_lt. reflexivity. }
  assert (0 < IZR (2 ^ 53))%R as H53 by (apply IZR_lt; reflexivity).
  fold k in E.
  assert (IZR (k * (2 ^ 53 * mu)) <= IZR (ln2_binary64 * 2 ^ e'))%R as H1
    by (apply IZR_le; lia).
  assert (IZR (ln2_binary64 * 2 ^ e') < IZR ((k + 1) * (2 ^ 53 * mu)))%R
    as H2 by (apply IZR_lt; lia).
  rewrite <- Ec in H1, H2. rewrite !mult_IZR in H1, H2.
  rewrite plus_IZR in H2.
  split.
  - apply Rmult_le_reg_r with (IZR (2 ^ 53)); [assumption|]. lra.
  - apply Rmult_lt_reg_r with (IZR (2 ^ 53)); [assumption|]. lra.
Qed.

(** The conversion of the entry count rounds once, and not at all below
    [2^53]. *)
Lemma b64_of_size_t_spec :
  exists m e,
    b64_of_size_t mu = B64_finite m e /\ 0 < m
    /\ (IZR mu * (1 - / IZR (2 ^ 53)) <= IZR m * bpow e
        <= IZR mu * (1 + / IZR (2 ^ 53)))%R
    /\ (mu < 2 ^ 53 -> (IZR m * bpow e = IZR mu)%R).
Proof using Hmu.
  assert (IZR mu / IZR 1 = IZR mu)%R as E1 by field.
  assert (bpow (-1000) <= IZR mu / IZR 1 < bpow 900)%R as Hx.
  { rewrite E1. split.
    - apply Rle_trans with (bpow 0); [apply bpow_le; lia|].
      change (bpow 0) with 1%R. apply IZR_le; lia.
    - apply Rlt_le_trans with (bpow 64); [|apply bpow_le; lia].
      rewrite bpow_Z by lia. apply IZR_lt; lia. }
  destruct (b64_round_rel mu 1 ltac:(lia) ltac:(lia) Hx)
    as (m & e & Er & Hm & Hrel & Hex).
  exists m, e. unfold b64_of_size_t. split; [exact Er|]. split; [exact Hm|].
  rewrite E1 in Hrel. split; [exact Hrel|].
  intros Hs. rewrite <- E1. apply (Hex mu 0); [lia|].
  rewrite E1. change (bpow 0) with 1%R. ring.
Qed.

(** The code's [double] expression, converted to [int], is the truncated
    quotient of the exact operands wherever that fits an [int]: the
    product is exact; where the entry count is below [2^53] the quotient
    is rounded once, by less than its distance to the next integer; above,
    the quotient is below one. *)
Lemma optimum_in_range :
  ln2_binary64 * 2 ^ e' / (2 ^ 53 * mu) < 2 ^ 31 ->
  b64_to_int
    (b64_div (b64_mul std_log_2 (b64_of_size_t (2 ^ e')))
             (b64_of_size_t mu))
  = ln2_binary64 * 2 ^ e' / (2 ^ 53 * mu).
Proof using He' Hmu.
  intros Hk.
  rewrite mul_log_2_power_of_two by exact He'.
  destruct b64_of_size_t_spec as (m3 & e3 & E3 & Hm3 & HV & HVex).
  rewrite E3. unfold b64_div.
  destruct (Z.eqb_spec m3 0) as [|_]; [lia|].
  set (e1 := e' - 53).
  replace (e1 - e3) with (- (e3 - e1)) by lia.
  set (num := ln2_binary64 * 2 ^ Z.max 0 (- (e3 - e1))).
  set (den := m3 * 2 ^ Z.max 0 (e3 - e1)).
  set (V := (IZR m3 * bpow e3)%R) in *.
  pose proof cN_bounds as [HcN1 HcN2].
  pose proof kc_bounds as [Hk0 [Hk1 Hk2]].
  fold e1 in HcN1, HcN2, Hk1, Hk2.
  set (c := (IZR ln2_binary64 * bpow e1)%R) in *.
  set (k := ln2_binary64 * 2 ^ e' / (2 ^ 53 * mu)) in *.
  assert (1 <= IZR mu)%R as Hmu1 by (apply IZR_le; lia).
  assert (IZR mu < IZR (2 ^ 64))%R as Hmu2 by (apply IZR_lt; lia).
  change (2 ^ 53) with 9007199254740992 in HV.
  change (2 ^ 64) with 18446744073709551616 in Hmu2.
  change (2 ^ 33) with 8589934592 in HcN2.
  assert (/ 2 <= V < 36893488147419103232)%R as HVb by lra.
  assert (0 < num) as Hnum.
  { unfold num. pose proof (pow2_pos (- (e3 - e1))).
    unfold ln2_binary64. lia. }
  assert (0 < den) as Hden.
  { unfold den. pose proof (pow2_pos (e3 - e1)). nia. }
  assert (IZR num / IZR den = c / V)%R as Ex.
  { unfold num, den. rewrite scaled_quotient by exact Hm3.
    replace (- (e3 - e1)) with (e1 - e3) by lia. rewrite bpow_sub.
    unfold c, V. pose proof (bpow_pos e3).
    field. split; apply Rgt_not_eq; [assumption|].
    apply IZR_lt. lia. }
  set (xq := (c / V)%R) in *.
  assert (xq * V = c)%R as ExV by (unfold xq; field; lra).
  assert (0 < xq)%R as Hxq0.
  { unfold xq. apply Rdiv_lt_0_compat; lra. }
  assert (bpow (-1000) <= IZR num / IZR den < bpow 900)%R as Hxq.
  { rewrite Ex. split.
    - apply Rle_trans with (bpow (-(66))); [apply bpow_le; lia|].
      rewrite bpow_opp, bpow_Z by lia.
      change (2 ^ 66) with 73786976294838206464.
      apply Rmult_le_reg_r with 73786976294838206464%R; [lra|].
      rewrite Rinv_l by lra. nra.
    - apply Rlt_le_trans with (bpow 34); [|apply bpow_le; lia].
      rewrite bpow_Z by lia. change (2 ^ 34) with 17179869184. nra. }
  destruct (b64_round_rel num den Hnum Hden Hxq)
    as (m4 & e4 & E4 & Hm4 & HY & HYex).
  rewrite E4. unfold b64_to_int.
  pose proof (truncation_floor m4 e4 ltac:(lia)) as Ht. cbv zeta in Ht.
  set (t := if 0 <=? e4 then m4 * 2 ^ e4 else m4 / 2 ^ (- e4)) in *.
  rewrite Ex in HY, HYex.
  change (2 ^ 53) with 9007199254740992 in HY.
  set (Y := (IZR m4 * bpow e4)%R) in *.
  assert (IZR k <= Y < IZR k + 1)%R as HkY.
  { destruct (Z_lt_le_dec mu (2 ^ 53)) as [Hsmall|Hbig].
    - specialize (HVex Hsmall). rewrite HVex in ExV.
      pose proof (bpow_num (53 - e') ltac:(lia)) as [EP HP].
      set (P := IZR (2 ^ (53 - e'))) in *.
      assert (c * P = IZR ln2_binary64)%R as EcP.
      { unfold c, e1. rewrite <- EP, Rmult_assoc, <- bpow_add.
        replace (e' - 53 + (53 - e')) with 0 by lia.
        change (bpow 0) with 1%R. ring. }
      set (W := (IZR mu * P)%R).
      assert (0 < W)%R as HW by (unfold W; nra).
      assert (xq * W = IZR ln2_binary64)%R as ExW.
      { unfold W. rewrite <- Rmult_assoc, ExV. exact EcP. }
      assert (IZR ln2_binary64 < 9007199254740992)%R as HM
        by (apply IZR_lt; reflexivity).
      assert (0 < IZR ln2_binary64)%R as HM0 by (apply IZR_lt; reflexivity).
      assert (IZR (k * (mu * 2 ^ (53 - e'))) = IZR k * W)%R as EkW
        by (rewrite !mult_IZR; unfold W, P; ring).
      assert (IZR ((k + 1) * (mu * 2 ^ (53 - e'))) = (IZR k + 1) * W)%R
        as EkW1 by (rewrite !mult_IZR, plus_IZR; unfold W, P; ring).
      assert (k * (mu * 2 ^ (53 - e')) <= ln2_binary64) as HZ1.
      { apply le_IZR. rewrite EkW, <- EcP. unfold W. nra. }
      assert (ln2_binary64 < (k + 1) * (mu * 2 ^ (53 - e'))) as HZ2.
      { apply lt_IZR. rewrite EkW1, <- EcP. unfold W. nra. }
      assert (xq * (1 - / 9007199254740992) * W <= Y * W
              <= xq * (1 + / 9007199254740992) * W)%R as HYW.
      { split; apply Rmult_le_compat_r; lra. }
      assert (IZR ln2_binary64 * (1 - / 9007199254740992) <= Y * W
              <= IZR ln2_binary64 * (1 + / 9007199254740992))%R as HYM.
      { rewrite <- ExW. lra. }
      split.
      + destruct (Z.eq_dec ln2_binary64 (k * (mu * 2 ^ (53 - e'))))
          as [Eq|Hne].
        * assert (xq = IZR k) as Exk.
          { apply Rmult_eq_reg_r with W; [|lra].
            rewrite ExW, Eq, EkW. reflexivity. }
          assert (0 < k) as Hkpos.
          { apply lt_IZR. rewrite <- Exk. exact Hxq0. }
          rewrite (HYex k 0); [lra|lia|].
          rewrite Exk. change (bpow 0) with 1%R. ring.
        * assert (k * (mu * 2 ^ (53 - e')) + 1 <= ln2_binary64) as HZ3
            by lia.
          apply IZR_le in HZ3. rewrite plus_IZR, EkW in HZ3.
          apply Rmult_le_reg_r with W; [exact HW|]. lra.
      + assert (ln2_binary64 + 1 <= (k + 1) * (mu * 2 ^ (53 - e')))
          as HZ3 by lia.
        apply IZR_le in HZ3. rewrite plus_IZR, EkW1 in HZ3.
        apply Rmult_lt_reg_r with W; [exact HW|]. lra.
    - assert (9007199254740992 <= IZR mu)%R as Hmu3
        by (apply IZR_le; exact Hbig).
      assert (k = 0) as ->.
      { destruct (Z.eq_dec k 0) as [|Hne]; [assumption|].
        assert (1 <= IZR k)%R by (apply IZR_le; lia). nra. }
      assert (9007199254740991 <= V)%R as HV3 by lra.
      assert (xq < / 2)%R as Hxq2 by nra.
      simpl IZR. nra. }
  assert (t = k) as -> by (eapply floor_unique; eassumption).
  destruct (Z.leb_spec 0 k); [|lia].
  destruct (Z.ltb_spec k (2 ^ 31)); [reflexivity|lia].
Qed.

(** That truncated quotient is the floor of [ln 2 * 2^e' / mu]: no
    multiple of [mu] lies between [2^e'] times the binary64 value and
    [2^e'] times ln 2. *)
Lemma optimum_floor :
  Zfloor (ln 2 * IZR (2 ^ e') / IZR mu)
  = ln2_binary64 * 2 ^ e' / (2 ^ 53 * mu).
Proof using He' Hmu.
  apply Zfloor_eq.
  assert (0 < 2 ^ 53 * mu) as HD by lia.
  assert (0 < 2 ^ e') as HP by (apply Z.pow_pos_nonneg; lia).
  assert (0 < 2 ^ (53 - e')) as HQ by (apply Z.pow_pos_nonneg; lia).
  assert (2 ^ 53 = 2 ^ e' * 2 ^ (53 - e')) as E53.
  { rewrite <- Z.pow_add_r by lia. f_equal. lia. }
  pose proof (Z.div_mod (ln2_binary64 * 2 ^ e') (2 ^ 53 * mu) ltac:(lia))
    as E.
  pose proof (Z.mod_pos_bound (ln2_binary64 * 2 ^ e') (2 ^ 53 * mu) HD)
    as Hr.
  set (k := ln2_binary64 * 2 ^ e' / (2 ^ 53 * mu)) in *.
  assert (k * (2 ^ 53 * mu) <= ln2_binary64 * 2 ^ e') as HZ1 by lia.
  assert ((ln2_binary64 + 1) * 2 ^ e' <= (k + 1) * (2 ^ 53 * mu)) as HZ2.
  { assert (ln2_binary64 * 2 ^ e' < (k + 1) * (2 ^ 53 * mu)) as Hlt by lia.
    rewrite E53 in Hlt |- *.
    set (P := 2 ^ e') in *. set (Q := 2 ^ (53 - e')) in *.
    assert (ln2_binary64 < (k + 1) * (Q * mu)) as Hlt' by nia.
    nia. }
  apply IZR_le in HZ1, HZ2. rewrite !mult_IZR in HZ1, HZ2.
  rewrite !plus_IZR in HZ2.
  pose proof ln2_bounds as [Hl1 Hl2].
  assert (0 < IZR mu)%R as Hmu0 by (apply IZR_lt; lia).
  assert (0 < IZR (2 ^ e'))%R as HP0 by (apply IZR_lt; lia).
  assert (0 < IZR (2 ^ 53))%R as H53 by (apply IZR_lt; reflexivity).
  set (N := IZR (2 ^ e')) in *. set (T := IZR (2 ^ 53)) in *.
  assert (ln 2 * N / IZR mu * (T * IZR mu) = ln 2 * T * N)%R as Ex
    by (field; lra).
  assert (0 < T * IZR mu)%R as HTm by nra.
  split.
  - apply Rmult_le_reg_r with (T * IZR mu)%R; [exact HTm|].
    rewrite Ex. nra.
  - apply Rmult_lt_reg_r with (T * IZR mu)%R; [exact HTm|].
    rewrite Ex. nra.
Qed.

End Optimum.

(** ** The setters, as equations *)

Lemma shl_1 e : 0 <= e < 64 -> shl 1 e = 2 ^ e.
Proof.
  intros He. rewrite shl_mul by lia. rewrite Z.mul_1_l.
  apply to_size_t_small. unfold is_size_t. rewrite size_t_modulus_eq.
  split; [apply Z.pow_nonneg; lia | apply Z.pow_lt_mono_r; lia].
Qed.

Lemma ClearParameterError_eq flag bf :
  ClearParameterError flag bf
  = (tt, mkBloomFilter (filter_ bf) (num_hashes_ bf) (size_ bf)
                       (Z.land (parameter_error_flags_ bf) (Z.lnot flag))).
Proof. reflexivity. Qed.

Lemma SetLog2NumBits_eq log2_num_bits bf :
  SetLog2NumBits log2_num_bits bf
  = if 33 <? log2_num_bits then
      (false, mkBloomFilter (resize (Z.to_nat (shl 1 33)) false (filter_ bf))
                (num_hashes_ bf) (size_ bf)
                (Z.lor (parameter_error_flags_ bf) kHasLog2NumBitsError))
    else
      (true, mkBloomFilter
               (resize (Z.to_nat (shl 1 log2_num_bits)) false (filter_ bf))
               (num_hashes_ bf) (size_ bf)
               (Z.land (parameter_error_flags_ bf)
                       (Z.lnot kHasLog2NumBitsError))).
Proof. unfold SetLog2NumBits. destruct (33 <? log2_num_bits); reflexivity. Qed.

Lemma SetNumHashes_eq num_hashes bf :
  SetNumHashes num_hashes bf
  = if num_hashes <? 1 then
      (false, mkBloomFilter (filter_ bf) 1 (size_ bf)
                (Z.lor (parameter_error_flags_ bf) kHasNumHashesError))
    else
      (true, mkBloomFilter (filter_ bf) num_hashes (size_ bf)
               (Z.land (parameter_error_flags_ bf)
                       (Z.lnot kHasNumHashesError))).
Proof. unfold SetNumHashes. destruct (num_hashes <? 1); reflexivity. Qed.

Lemma SetOptimalNumHashes_eq `{Platform} max_num_entries bf :
  let num_hashes :=
    to_size_t
      (b64_to_int
         (b64_div (b64_mul std_log_2 (b64_of_size_t (NumBits bf)))
                  (b64_of_size_t max_num_entries))) in
  SetOptimalNumHashes max_num_entries bf
  = (negb (num_hashes <? 1),
     mkBloomFilter (filter_ bf) (if num_hashes <? 1 then 1 else num_hashes)
       (size_ bf)
       (Z.land (parameter_error_flags_ bf) (Z.lnot kHasNumHashesError))).
Proof.
  intros num_hashes. unfold SetOptimalNumHashes, bind, get.
  fold num_hashes. rewrite SetNumHashes_eq.
  destruct (num_hashes <? 1); rewrite ClearParameterError_eq; simpl;
    unfold kHasNumHashesError.
  - now rewrite flag_set_clear_2.
  - now rewrite flag_clear_2_idemp.
Qed.

Lemma NumBits_resize n f k s fl :
  0 <= n -> NumBits (mkBloomFilter (resize (Z.to_nat n) false f) k s fl) = n.
Proof.
  intros Hn. unfold NumBits. cbn [filter_].
  rewrite length_resize. now apply Z2Nat.id.
Qed.

Lemma has_flag_true bf flag :
  Z.land (ParameterErrorFlags bf) flag = flag -> flag <> 0 ->
  has_flag bf flag = true.
Proof.
  intros E Hf. unfold has_flag. rewrite E.
  destruct (Z.eqb_spec flag 0); [contradiction|reflexivity].
Qed.

Lemma has_flag_false bf flag :
  Z.land (ParameterErrorFlags bf) flag = 0 -> has_flag bf flag = false.
Proof. intros E. unfold has_flag. now rewrite E. Qed.

(** ** The probe sequence *)

Lemma mask_ones bf e :
  0 <= e <= 33 -> NumBits bf = 2 ^ e -> sub (NumBits bf) 1 = Z.ones e.
Proof.
  intros He HN. unfold sub. rewrite HN, Z.ones_equiv, <- Z.sub_1_r.
  apply to_size_t_small. unfold is_size_t. rewrite size_t_modulus_eq.
  assert (0 < 2 ^ e) by (apply Z.pow_pos_nonneg; lia).
  assert (2 ^ e < 2 ^ 64) by (apply Z.pow_lt_mono_r; lia).
  lia.
Qed.

Lemma land_ones_to_size_t x e :
  0 <= e <= 64 -> Z.land (to_size_t x) (Z.ones e) = x mod 2 ^ e.
Proof.
  intros He. rewrite Z.land_ones by lia. unfold to_size_t.
  rewrite size_t_modulus_eq. apply Z.mod_mod_divide.
  exists (2 ^ (64 - e)). rewrite <- Z.pow_add_r by lia. f_equal. lia.
Qed.

Lemma ModNumBits_mod bf e x :
  0 <= e <= 33 -> NumBits bf = 2 ^ e -> ModNumBits bf x = x mod 2 ^ e.
Proof.
  intros He HN. unfold ModNumBits. cbv zeta.
  rewrite (mask_ones bf e He HN). apply Z.land_ones. lia.
Qed.

Lemma Hash_loop_spec e n :
  0 <= e <= 64 ->
  forall (i : nat) a b pre,
    length pre = i ->
    Hash_loop n (Z.of_nat i) a b (Z.ones e) (pre ++ replicate n 0)
    = pre ++ Hash_spec_from n (Z.of_nat i) a b (2 ^ e).
Proof.
  intros He. induction n as [|n IH]; intros i a b pre Hpre; simpl.
  - reflexivity.
  - rewrite Nat2Z.id. unfold add. rewrite !land_ones_to_size_t by lia.
    replace i with (length pre + 0)%nat at 3 by lia.
    rewrite insert_app_r. cbn [insert list_insert].
    rewrite (cons_middle _ pre), app_assoc.
    replace (Z.of_nat i + 1) with (Z.of_nat (S i)) by lia.
    rewrite IH by (rewrite length_app; simpl; lia).
    now rewrite <- app_assoc.
Qed.

Section HashFacts.
Context `{Platform} {T : Type} `{Element T}.

Lemma Hash_eq_spec bf e (entry : T) :
  0 <= e <= 33 -> NumBits bf = 2 ^ e -> 1 <= NumHashes bf ->
  Hash bf entry
  = Hash_spec (2 ^ e) (NumHashes bf) (FirstHash bf entry) (SecondHash bf entry).
Proof.
  intros He HN Hk. unfold Hash, Hash_spec. cbv zeta.
  rewrite (mask_ones bf e He HN).
  replace (Z.to_nat (NumHashes bf)) with (S (Z.to_nat (NumHashes bf - 1)))
    by lia.
  cbn [replicate insert list_insert].
  apply (Hash_loop_spec e _ ltac:(lia) 1%nat _ _ [FirstHash bf entry]).
  reflexivity.
Qed.

Lemma Hash_spec_from_length n i a b N : length (Hash_spec_from n i a b N) = n.
Proof.
  revert i a b. induction n as [|n IH]; intros i a b; simpl;
    [reflexivity | now rewrite IH].
Qed.

Lemma Hash_spec_from_range n i a b N :
  0 < N -> Forall (fun h => 0 <= h < N) (Hash_spec_from n i a b N).
Proof.
  intros HN. revert i a b. induction n as [|n IH]; intros i a b; simpl.
  - constructor.
  - constructor; [now apply Z.mod_pos_bound | apply IH].
Qed.

Lemma Hash_length bf (entry : T) :
  wf bf -> Z.of_nat (length (Hash bf entry)) = NumHashes bf.
Proof.
  intros [[e [He HN]] Hk]. rewrite (Hash_eq_spec bf e) by (assumption || lia).
  unfold Hash_spec. cbn [length]. rewrite Hash_spec_from_length. lia.
Qed.

(** No probe position is out of the bit array's range. *)
Lemma Hash_in_range bf (entry : T) :
  wf bf -> Forall (fun h => 0 <= h < NumBits bf) (Hash bf entry).
Proof.
  intros [[e [He HN]] Hk]. rewrite (Hash_eq_spec bf e) by (assumption || lia).
  rewrite HN. assert (0 < 2 ^ e) by (apply Z.pow_pos_nonneg; lia).
  unfold Hash_spec. constructor.
  - unfold FirstHash. rewrite (ModNumBits_mod bf e) by assumption.
    now apply Z.mod_pos_bound.
  - now apply Hash_spec_from_range.
Qed.

(** The probe sequence depends on the object through [NumBits] and
    [NumHashes] only. *)
Lemma Hash_ext bf bf' (entry : T) :
  NumBits bf' = NumBits bf -> NumHashes bf' = NumHashes bf ->
  Hash bf' entry = Hash bf entry.
Proof.
  intros HN Hk. unfold Hash, FirstHash, SecondHash, ModNumBits.
  now rewrite HN, Hk.
Qed.

Lemma SecondHash_raw_odd (entry : T) : Z.odd (SecondHash_raw entry) = true.
Proof.
  unfold SecondHash_raw. rewrite <- Z.bit0_odd, Z.lor_spec.
  apply orb_true_r.
Qed.

End HashFacts.

Lemma odd_coprime_pow2 x e : Z.odd x = true -> 0 <= e -> Z.gcd x (2 ^ e) = 1.
Proof.
  intros Hx He. revert e He. apply natlike_ind.
  - apply Z.gcd_1_r.
  - intros e He IH. rewrite Z.pow_succ_r by assumption.
    assert (Z.gcd x 2 = 1) as H2.
    { pose proof (Z.gcd_nonneg x 2) as Hnn.
      pose proof (Z.gcd_divide_r x 2) as Hd2.
      pose proof (Z.gcd_divide_l x 2) as Hdx.
      apply Z.divide_pos_le in Hd2; [|lia].
      assert (Z.gcd x 2 = 0 \/ Z.gcd x 2 = 1 \/ Z.gcd x 2 = 2) as [E|[E|E]]
        by lia; [ | exact E | ].
      - apply Z.gcd_eq_0_r in E. discriminate.
      - rewrite E in Hdx. destruct Hdx as [q Hq].
        rewrite Hq, Z.mul_comm, Z.odd_mul in Hx. discriminate. }
    apply Z.bezout_1_gcd.
    apply Z.gcd_bezout in H2. apply Z.gcd_bezout in IH.
    destruct H2 as [u2 [v2 E2]], IH as [u [v E]].
    exists (u2 * u * x + u2 * v * 2 ^ e + v2 * u * 2), (v2 * v). nia.
Qed.

(** ** Insert and Contains *)

Lemma Insert_loop_eq hashes bf :
  Insert_loop hashes bf
  = (tt, mkBloomFilter (set_bits hashes (filter_ bf)) (num_hashes_ bf)
                       (size_ bf) (parameter_error_flags_ bf)).
Proof.
  revert bf. induction hashes as [|h hs IH]; intros bf.
  - now destruct bf.
  - cbn [Insert_loop]. unfold bind, write_filter. now rewrite IH.
Qed.

Lemma set_bits_length hashes f : length (set_bits hashes f) = length f.
Proof.
  revert f. induction hashes as [|h hs IH]; intros f; simpl;
    [reflexivity|].
  unfold set_bits in IH. now rewrite IH, length_insert.
Qed.

Lemma set_bits_keeps hashes f (i : nat) :
  f !! i = Some true -> set_bits hashes f !! i = Some true.
Proof.
  revert f. induction hashes as [|h hs IH]; intros f Hi; simpl;
    [exact Hi|].
  apply IH. destruct (decide (Z.to_nat h = i)) as [->|Hne].
  - apply list_lookup_insert_eq. now apply lookup_lt_Some in Hi.
  - now rewrite list_lookup_insert_ne.
Qed.

Lemma set_bits_sets hashes f h :
  In h hashes -> (Z.to_nat h < length f)%nat ->
  set_bits hashes f !! Z.to_nat h = Some true.
Proof.
  revert f. induction hashes as [|h' hs IH]; intros f Hin Hlt; simpl.
  - destruct Hin.
  - destruct Hin as [->|Hin].
    + apply set_bits_keeps. now apply list_lookup_insert_eq.
    + apply IH; [assumption | now rewrite length_insert].
Qed.

Lemma Contains_loop_frame hashes bf : snd (Contains_loop hashes bf) = bf.
Proof.
  induction hashes as [|h hs IH]; [reflexivity|].
  cbn [Contains_loop]. unfold bind, read_filter, get.
  destruct (negb (bit bf h)); [reflexivity | exact IH].
Qed.

Lemma Contains_loop_true hashes bf :
  fst (Contains_loop hashes bf) = true
  <-> Forall (fun h => bit bf h = true) hashes.
Proof.
  induction hashes as [|h hs IH].
  - split; [constructor | reflexivity].
  - cbn [Contains_loop]. unfold bind, read_filter, get.
    destruct (bit bf h) eqn:E; cbn [negb].
    + rewrite IH. split; [now constructor | now inversion 1].
    + split; [discriminate | inversion 1; congruence].
Qed.

Lemma bit_true bf h : bit bf h = true <-> filter_ bf !! Z.to_nat h = Some true.
Proof.
  unfold bit. destruct (filter_ bf !! Z.to_nat h) as [[|]|]; simpl;
    split; congruence.
Qed.

Lemma extends_refl bf : extends bf bf.
Proof. repeat split; auto. Qed.

Lemma extends_trans bf1 bf2 bf3 :
  extends bf1 bf2 -> extends bf2 bf3 -> extends bf1 bf3.
Proof.
  intros (HN & Hk & Hb) (HN' & Hk' & Hb').
  repeat split; [congruence | congruence | auto].
Qed.

Lemma wf_extends bf bf' : wf bf -> extends bf bf' -> wf bf'.
Proof.
  intros [[e He] Hk] (HN & Hk' & _). split.
  - exists e. now rewrite HN.
  - now rewrite Hk'.
Qed.

Section InsertContains.
Context `{Platform} {T : Type} `{Element T}.

Lemma Insert_eq (entry : T) bf :
  Insert entry bf
  = (tt, mkBloomFilter (set_bits (Hash bf entry) (filter_ bf))
           (num_hashes_ bf) (add (size_ bf) 1) (parameter_error_flags_ bf)).
Proof. unfold Insert, bind, get. now rewrite Insert_loop_eq. Qed.

Lemma Contains_frame (entry : T) bf : snd (Contains entry bf) = bf.
Proof. unfold Contains, bind, get. apply Contains_loop_frame. Qed.

Lemma Contains_true (entry : T) bf :
  fst (Contains entry bf) = true
  <-> Forall (fun h => bit bf h = true) (Hash bf entry).
Proof. unfold Contains, bind, get. apply Contains_loop_true. Qed.

Lemma Insert_extends (entry : T) bf : extends bf (snd (Insert entry bf)).
Proof.
  rewrite Insert_eq. unfold extends, NumBits, NumHashes. cbn.
  rewrite set_bits_length. repeat split.
  intros h. rewrite !bit_true. cbn. apply set_bits_keeps.
Qed.

Lemma Insert_sets (entry : T) bf :
  wf bf ->
  Forall (fun h => bit (snd (Insert entry bf)) h = true) (Hash bf entry).
Proof.
  intros Hwf. pose proof (Hash_in_range bf entry Hwf) as Hr.
  rewrite Insert_eq. apply Forall_forall. intros h Hin.
  rewrite bit_true. cbn. apply set_bits_sets.
  - now apply list_elem_of_In.
  - rewrite Forall_forall in Hr. specialize (Hr h Hin).
    unfold NumBits in Hr. lia.
Qed.

(** Once the probe positions of [entry] are set they stay set, and
    [Contains] finds them, in every object that extends this one. *)
Lemma Contains_after_Insert (entry : T) bf bf' :
  wf bf -> extends (snd (Insert entry bf)) bf' ->
  fst (Contains entry bf') = true.
Proof.
  intros Hwf Hext. apply Contains_true.
  pose proof (extends_trans _ _ _ (Insert_extends entry bf) Hext)
    as (HN & Hk & _).
  rewrite (Hash_ext bf bf') by assumption.
  pose proof (Insert_sets entry bf Hwf) as Hs.
  rewrite Forall_forall in *. intros h Hin.
  destruct Hext as (_ & _ & Hb). apply Hb, Hs, Hin.
Qed.

End InsertContains.

(** ** The class invariant *)

Lemma bind_snd {A B} (m : method A) (k : method B) bf :
  snd ((m ;;; k) bf) = snd (k (snd (m bf))).
Proof. unfold bind. now destruct (m bf). Qed.

Lemma NumBits_SetLog2NumBits e bf :
  0 <= e ->
  NumBits (snd (SetLog2NumBits e bf)) = if 33 <? e then 2 ^ 33 else 2 ^ e.
Proof.
  intros He. rewrite SetLog2NumBits_eq.
  destruct (Z.ltb_spec 33 e); cbn [snd].
  - rewrite NumBits_resize; rewrite shl_1 by lia;
      [reflexivity | apply Z.pow_nonneg; lia].
  - rewrite NumBits_resize; rewrite shl_1 by lia;
      [reflexivity | apply Z.pow_nonneg; lia].
Qed.

Lemma NumHashes_SetLog2NumBits e bf :
  NumHashes (snd (SetLog2NumBits e bf)) = NumHashes bf.
Proof. rewrite SetLog2NumBits_eq. now destruct (33 <? e). Qed.

Lemma NumBits_SetNumHashes k bf :
  NumBits (snd (SetNumHashes k bf)) = NumBits bf.
Proof. rewrite SetNumHashes_eq. now destruct (k <? 1). Qed.

Lemma NumHashes_SetNumHashes k bf :
  NumHashes (snd (SetNumHashes k bf)) = if k <? 1 then 1 else k.
Proof. rewrite SetNumHashes_eq. now destruct (k <? 1). Qed.

Lemma one_is_size_t : 1 <= 1 < size_t_modulus.
Proof. rewrite size_t_modulus_eq. split; [lia | reflexivity]. Qed.

Lemma wf_SetLog2NumBits e bf :
  0 <= e -> 1 <= NumHashes bf < size_t_modulus ->
  wf (snd (SetLog2NumBits e bf)).
Proof.
  intros He Hk. split.
  - rewrite NumBits_SetLog2NumBits by assumption.
    destruct (Z.ltb_spec 33 e); [exists 33 | exists e]; split; lia.
  - now rewrite NumHashes_SetLog2NumBits.
Qed.

Lemma wf_SetNumHashes k bf :
  k < size_t_modulus ->
  (exists e, 0 <= e <= 33 /\ NumBits bf = 2 ^ e) ->
  wf (snd (SetNumHashes k bf)).
Proof.
  intros Hk HN. split.
  - now rewrite NumBits_SetNumHashes.
  - rewrite NumHashes_SetNumHashes. pose proof one_is_size_t.
    destruct (Z.ltb_spec k 1); lia.
Qed.

Lemma BloomFilter2_eq num_bits num_hashes :
  BloomFilter2 num_bits num_hashes
  = snd (SetNumHashes num_hashes (snd (SetLog2NumBits num_bits member_init))).
Proof. unfold BloomFilter2. apply bind_snd. Qed.

Lemma wf_BloomFilter2 num_bits num_hashes :
  0 <= num_bits -> num_hashes < size_t_modulus ->
  wf (BloomFilter2 num_bits num_hashes).
Proof.
  intros He Hk. rewrite BloomFilter2_eq. apply wf_SetNumHashes; [assumption|].
  rewrite NumBits_SetLog2NumBits by assumption.
  destruct (Z.ltb_spec 33 num_bits); [exists 33 | exists num_bits];
    split; lia.
Qed.

Lemma wf_ClearParameterError flag bf :
  wf bf -> wf (snd (ClearParameterError flag bf)).
Proof. intros Hwf. rewrite ClearParameterError_eq. exact Hwf. Qed.

Section CallFacts.
Context `{Platform} {T : Type} `{Element T}.

Lemma wf_SetOptimalNumHashes m bf :
  wf bf -> wf (snd (SetOptimalNumHashes m bf)).
Proof.
  intros [HN Hk]. rewrite SetOptimalNumHashes_eq. cbn [snd]. split.
  - exact HN.
  - unfold NumHashes. cbn [num_hashes_]. pose proof one_is_size_t.
    match goal with
    | |- context [to_size_t ?v <? 1] =>
        pose proof (to_size_t_range v) as Hr; unfold is_size_t in Hr;
        destruct (Z.ltb_spec (to_size_t v) 1); lia
    end.
Qed.

Lemma exec_snd (c : call) bf :
  snd (exec c bf)
  = match c with
    | CallInsert entry => snd (Insert entry bf)
    | CallContains entry => bf
    | CallSetLog2NumBits e => snd (SetLog2NumBits e bf)
    | CallSetNumHashes k => snd (SetNumHashes k bf)
    | CallSetOptimalNumHashes m => snd (SetOptimalNumHashes m bf)
    | CallClearParameterError flag => snd (ClearParameterError flag bf)
    end.
Proof.
  destruct c; cbn [exec]; unfold bind, ret.
  - now destruct (Insert entry bf).
  - rewrite <- (Contains_frame entry bf) at 2.
    now destruct (Contains entry bf).
  - now destruct (SetLog2NumBits log2_num_bits bf).
  - now destruct (SetNumHashes num_hashes bf).
  - now destruct (SetOptimalNumHashes max_num_entries bf).
  - reflexivity.
Qed.

Lemma exec_fst_Contains (entry : T) bf :
  fst (exec (CallContains entry) bf) = Some (fst (Contains entry bf)).
Proof. cbn [exec]. unfold bind, ret. now destruct (Contains entry bf). Qed.

Lemma wf_exec (c : call) bf :
  wf bf -> well_typed c -> wf (snd (exec c bf)).
Proof.
  intros Hwf Hc. rewrite exec_snd. destruct c; cbn [well_typed] in Hc.
  - eapply wf_extends; [exact Hwf | apply Insert_extends].
  - exact Hwf.
  - destruct Hwf as [_ Hk]. apply wf_SetLog2NumBits; [apply Hc | exact Hk].
  - destruct Hwf as [HN _]. apply wf_SetNumHashes; [apply Hc | exact HN].
  - now apply wf_SetOptimalNumHashes.
  - now apply wf_ClearParameterError.
Qed.

Lemma reachable_wf bf : reachable bf -> wf bf.
Proof.
  induction 1 as [e k He Hk | bf c _ IH Hc].
  - apply wf_BloomFilter2; [apply He | apply Hk].
  - now apply wf_exec.
Qed.

Lemma exec_extends (c : call) bf :
  insert_or_contains c -> extends bf (snd (exec c bf)).
Proof.
  intros Hc. rewrite exec_snd. destruct c; try destruct Hc.
  - apply Insert_extends.
  - apply extends_refl.
Qed.

Lemma exec_all_cons (c : call) rest bf :
  exec_all (c :: rest) bf
  = (fst (exec c bf) :: fst (exec_all rest (snd (exec c bf))),
     snd (exec_all rest (snd (exec c bf)))).
Proof.
  cbn [exec_all]. unfold bind, ret. destruct (exec c bf) as [r bf'].
  cbn [fst snd]. now destruct (exec_all rest bf').
Qed.

Lemma exec_all_extends (calls : list call) bf :
  Forall insert_or_contains calls -> extends bf (snd (exec_all calls bf)).
Proof.
  intros Hcs. revert bf. induction Hcs as [|c rest Hc _ IH]; intros bf.
  - apply extends_refl.
  - rewrite exec_all_cons. cbn [snd].
    eapply extends_trans; [apply exec_extends, Hc | apply IH].
Qed.

Lemma wf_exec_all (calls : list call) bf :
  Forall well_typed calls -> wf bf -> wf (snd (exec_all calls bf)).
Proof.
  intros Hcs. revert bf. induction Hcs as [|c rest Hc _ IH]; intros bf Hwf.
  - exact Hwf.
  - rewrite exec_all_cons. cbn [snd]. apply IH. now apply wf_exec.
Qed.

Lemma exec_all_app_snd (l1 l2 : list call) bf :
  snd (exec_all (l1 ++ l2) bf) = snd (exec_all l2 (snd (exec_all l1 bf))).
Proof.
  revert bf. induction l1 as [|c l1 IH]; intros bf; [reflexivity|].
  rewrite <- app_comm_cons, !exec_all_cons. cbn [snd]. apply IH.
Qed.

(** The result of the [j]-th call is the result of that call on the object
    the calls before it have produced. *)
Lemma exec_all_lookup (calls : list call) bf (j : nat) c :
  calls !! j = Some c ->
  fst (exec_all calls bf) !! j
  = Some (fst (exec c (snd (exec_all (take j calls) bf)))).
Proof.
  revert bf j. induction calls as [|c' rest IH]; intros bf j Hj.
  - discriminate.
  - rewrite exec_all_cons. cbn [fst]. destruct j as [|j].
    + injection Hj as ->. reflexivity.
    + cbn [take]. rewrite exec_all_cons. cbn [snd].
      apply (IH _ _ Hj).
Qed.

End CallFacts.

Lemma lor_1_even y : y mod 2 = 0 -> Z.lor y 1 = y + 1.
Proof.
  intros Hy. pose proof (Z.add_lor_land y 1) as E.
  change (Z.land y 1) with (Z.land y (Z.ones 1)) in E.
  rewrite Z.land_ones in E by lia. change (2 ^ 1) with 2 in E. lia.
Qed.

Lemma shl_1_lor_1 x : Z.lor (shl x 1) 1 = (2 * x + 1) mod 2 ^ 64.
Proof.
  rewrite shl_mul by lia. unfold to_size_t. rewrite size_t_modulus_eq.
  change (2 ^ 1) with 2. change (2 ^ 64) with 18446744073709551616.
  rewrite lor_1_even; Z.to_euclidean_division_equations; lia.
Qed.

Lemma not_all_true {A} (f : A -> bool) (l : list A) :
  ~ Forall (fun x => f x = true) l <-> Exists (fun x => f x = false) l.
Proof.
  induction l as [|x l IH].
  - split; [intros Hn; destruct Hn; constructor | inversion 1].
  - split.
    + intros Hn. destruct (f x) eqn:E.
      * apply Exists_cons_tl, IH. intros Hl. apply Hn. now constructor.
      * now apply Exists_cons_hd.
    + intros HE Hall. inversion Hall; subst. inversion HE; subst.
      * congruence.
      * now apply IH.
Qed.

(** ** The claims *)

(** C7. For every value of a supported type, the second hash before its
    reduction modulo the number of bits is twice the djb2 hash of the
    value's text plus one, in machine-word arithmetic; it is odd, and so
    coprime to every power of two. *)
Theorem SecondHash_raw_odd_coprime `{Platform} {T : Type} `{Element T}
    (entry : T) :
  SecondHash_raw entry = (2 * hash.Djb2 (to_string entry) + 1) mod 2 ^ 64
  /\ (forall bf, SecondHash bf entry = ModNumBits bf (SecondHash_raw entry))
  /\ Z.odd (SecondHash_raw entry) = true
  /\ forall e, 0 <= e -> Z.gcd (SecondHash_raw entry) (2 ^ e) = 1.
Proof.
  split; [apply shl_1_lor_1|]. split; [reflexivity|].
  split; [apply SecondHash_raw_odd|].
  intros e He. apply odd_coprime_pow2; [apply SecondHash_raw_odd | exact He].
Qed.

Lemma SecondHash_raw_odd_coprime_witness :
  0 <= 8
  /\ Z.gcd (@SecondHash_raw linux_x86_64 N unsigned_long_Element 1%N) (2 ^ 8)
     = 1.
Proof.
  split; [lia|].
  apply (@SecondHash_raw_odd_coprime linux_x86_64 N unsigned_long_Element 1%N).
  lia.
Defined.

(** C2. In a filter of [N = 2^e] bits with [k >= 1] hash functions,
    [Hash] returns the [k] positions of enhanced double hashing, in order:
    [hashes[0] = FirstHash], then for [i = 1 .. k-1], [a <- (a + b) mod N],
    [b <- (b + i) mod N], [hashes[i] = a], from [a = FirstHash] and
    [b = SecondHash]; the reduction modulo [N] is the bitwise and with
    [N - 1]. *)
Theorem Hash_enhanced_double_hashing `{Platform} {T : Type} `{Element T}
    (bf : BloomFilter) (entry : T) :
  wf bf ->
  Hash bf entry
  = Hash_spec (NumBits bf) (NumHashes bf)
              (FirstHash bf entry) (SecondHash bf entry)
  /\ Z.of_nat (length (Hash bf entry)) = NumHashes bf
  /\ forall x, ModNumBits bf x = Z.land x (NumBits bf - 1)
               /\ ModNumBits bf x = x mod NumBits bf.
Proof.
  intros Hwf. split; [|split].
  - destruct Hwf as [[e [He HN]] Hk]. rewrite HN.
    apply Hash_eq_spec; [exact He | exact HN | lia].
  - now apply Hash_length.
  - intros x. destruct Hwf as [[e [He HN]] _]. split.
    + unfold ModNumBits. cbv zeta. rewrite (mask_ones bf e He HN), HN.
      now rewrite Z.ones_equiv, <- Z.sub_1_r.
    + rewrite HN. now apply ModNumBits_mod.
Qed.

Lemma Hash_enhanced_double_hashing_witness :
  wf BloomFilter0
  /\ @Hash linux_x86_64 N unsigned_long_Element BloomFilter0 1%N
     = Hash_spec (NumBits BloomFilter0) (NumHashes BloomFilter0)
         (@FirstHash N unsigned_long_Element BloomFilter0 1%N)
         (@SecondHash linux_x86_64 N unsigned_long_Element BloomFilter0 1%N).
Proof.
  assert (wf BloomFilter0) as Hwf.
  { split; [exists 8; split; [lia | reflexivity] |].
    split; [discriminate | reflexivity]. }
  split; [exact Hwf|].
  apply (@Hash_enhanced_double_hashing linux_x86_64 N unsigned_long_Element
           BloomFilter0 1%N Hwf).
Defined.

(** C8. [Contains] changes nothing in the object (bit array, number of
    hash functions, inserted count and error flags are as before), and it
    returns true exactly when the bit at every probe position of the
    entry is set, false exactly when the bit at some probe position is
    not. *)
Theorem Contains_pure `{Platform} {T : Type} `{Element T}
    (bf : BloomFilter) (entry : T) :
  snd (Contains entry bf) = bf
  /\ snd (exec (CallContains entry) bf) = bf
  /\ (fst (Contains entry bf) = true
      <-> Forall (fun h => bit bf h = true) (Hash bf entry))
  /\ (fst (Contains entry bf) = false
      <-> Exists (fun h => bit bf h = false) (Hash bf entry)).
Proof.
  split; [apply Contains_frame|]. split; [apply (exec_snd (CallContains entry))|].
  split; [apply Contains_true|].
  rewrite <- not_true_iff_false, Contains_true.
  apply not_all_true.
Qed.

(** C1. No false negatives.  Take any object satisfying the class
    invariant and any sequence of calls in which [Insert(entry)] occurs and
    is followed by [Insert] and [Contains] calls only (the bit array is
    neither reset nor resized after it): every [Contains(entry)] among
    these later calls returns true. *)
Theorem no_false_negatives `{Platform} {T : Type} `{Element T}
    (bf : BloomFilter) (before after : list call) (entry : T) (j : nat) :
  wf bf ->
  Forall well_typed before ->
  Forall insert_or_contains after ->
  after !! j = Some (CallContains entry) ->
  fst (exec_all (before ++ CallInsert entry :: after) bf)
    !! (length before + 1 + j)%nat
  = Some (Some true).
Proof.
  intros Hwf Hbefore Hafter Hj.
  rewrite (exec_all_lookup _ bf _ (CallContains entry)).
  2:{ rewrite lookup_app_r by lia.
      replace (length before + 1 + j - length before)%nat with (S j) by lia.
      exact Hj. }
  rewrite exec_fst_Contains. do 2 f_equal.
  replace (length before + 1 + j)%nat with (length before + S j)%nat by lia.
  rewrite take_app_add.
  rewrite exec_all_app_snd. cbn [take]. rewrite exec_all_cons. cbn [snd].
  rewrite (exec_snd (CallInsert entry)).
  apply Contains_after_Insert with (bf := snd (exec_all before bf)).
  - now apply wf_exec_all.
  - apply exec_all_extends. now apply Forall_take.
Qed.

Lemma no_false_negatives_witness :
  let exec_all := @exec_all linux_x86_64 N unsigned_long_Element in
  let before := [CallSetNumHashes 3; CallInsert 2%N] in
  let after := [CallContains 1%N; CallInsert 3%N; CallContains 1%N] in
  wf BloomFilter0
  /\ Forall well_typed before
  /\ Forall insert_or_contains after
  /\ after !! 2%nat = Some (CallContains 1%N)
  /\ fst (exec_all (before ++ CallInsert 1%N :: after) BloomFilter0)
       !! (length before + 1 + 2)%nat
     = Some (Some true).
Proof.
  intros run before after.
  assert (wf BloomFilter0) as Hwf.
  { split; [exists 8; split; [lia | reflexivity] |].
    split; [discriminate | reflexivity]. }
  assert (Forall well_typed before) as Hb.
  { constructor; [split; [discriminate | reflexivity] |].
    constructor; [exact I | constructor]. }
  assert (Forall insert_or_contains after) as Ha.
  { repeat (constructor; [exact I|]). constructor. }
  repeat (split; [assumption || reflexivity|]).
  apply (@no_false_negatives linux_x86_64 N unsigned_long_Element
           BloomFilter0 before after 1%N 2%nat Hwf Hb Ha eq_refl).
Defined.

(** ** The setters *)

Lemma filter_BloomFilter2 e k :
  0 <= e ->
  filter_ (BloomFilter2 e k)
  = replicate (Z.to_nat (if 33 <? e then 2 ^ 33 else 2 ^ e)) false.
Proof.
  intros He. rewrite BloomFilter2_eq, SetNumHashes_eq, SetLog2NumBits_eq.
  destruct (Z.ltb_spec 33 e), (k <? 1); cbn [snd filter_ member_init];
    rewrite shl_1 by lia; apply resize_nil.
Qed.

Lemma ParameterErrorFlags_BloomFilter2 e k :
  ParameterErrorFlags (BloomFilter2 e k)
  = Z.lor (if 33 <? e then kHasLog2NumBitsError else 0)
          (if k <? 1 then kHasNumHashesError else 0).
Proof.
  rewrite BloomFilter2_eq, SetNumHashes_eq, SetLog2NumBits_eq.
  destruct (33 <? e), (k <? 1); reflexivity.
Qed.

Lemma bit_BloomFilter2 e k h : 0 <= e -> bit (BloomFilter2 e k) h = false.
Proof.
  intros He. unfold bit. rewrite filter_BloomFilter2 by assumption.
  destruct (replicate _ false !! Z.to_nat h) as [b|] eqn:E; [|reflexivity].
  apply lookup_replicate_1 in E. apply E.
Qed.

(** C3, as the code has it.  A call [SetLog2NumBits(e)] with [0 <= e <= 33]
    succeeds and leaves a bit array of exactly [2^e] bits; a bit at a
    position below both the old and the new size keeps the value it had,
    and a bit at a position from the old size on is false.  So all bits
    are false after the call when none was set before it, as in the
    constructors, which call it on the empty array. *)
Theorem SetLog2NumBits_resizes (e : Z) (bf : BloomFilter) :
  0 <= e <= 33 ->
  let bf' := snd (SetLog2NumBits e bf) in
  fst (SetLog2NumBits e bf) = true
  /\ NumBits bf' = 2 ^ e
  /\ (forall i : nat, (i < length (filter_ bf))%nat -> Z.of_nat i < 2 ^ e ->
        filter_ bf' !! i = filter_ bf !! i)
  /\ (forall i : nat, (length (filter_ bf) <= i)%nat -> Z.of_nat i < 2 ^ e ->
        filter_ bf' !! i = Some false)
  /\ ((forall h, bit bf h = false) -> forall h, bit bf' h = false)
  /\ forall k h, bit (BloomFilter2 e k) h = false.
Proof.
  intros He bf'.
  assert (0 <= 2 ^ e) as Hpow by (apply Z.pow_nonneg; lia).
  assert (filter_ bf' = resize (Z.to_nat (2 ^ e)) false (filter_ bf)) as Ef.
  { subst bf'. rewrite SetLog2NumBits_eq.
    destruct (Z.ltb_spec 33 e); [lia|]. cbn [snd filter_].
    now rewrite shl_1 by lia. }
  assert (forall i : nat, (i < length (filter_ bf))%nat -> Z.of_nat i < 2 ^ e ->
            filter_ bf' !! i = filter_ bf !! i) as Hold.
  { intros i Hi Hlt. rewrite Ef. apply lookup_resize; lia. }
  assert (forall i : nat, (length (filter_ bf) <= i)%nat -> Z.of_nat i < 2 ^ e ->
            filter_ bf' !! i = Some false) as Hnew.
  { intros i Hi Hlt. rewrite Ef. apply lookup_resize_new; lia. }
  repeat split.
  - rewrite SetLog2NumBits_eq. now destruct (Z.ltb_spec 33 e); [lia|].
  - subst bf'. rewrite NumBits_SetLog2NumBits by lia.
    now destruct (Z.ltb_spec 33 e); [lia|].
  - exact Hold.
  - exact Hnew.
  - intros Hall h. specialize (Hall h). unfold bit in *.
    destruct (Z_lt_le_dec (Z.of_nat (Z.to_nat h)) (2 ^ e)) as [Hlt|Hge].
    + destruct (le_lt_dec (length (filter_ bf)) (Z.to_nat h)) as [Hi|Hi].
      * now rewrite Hnew.
      * now rewrite Hold.
    + rewrite Ef, lookup_resize_old by lia. reflexivity.
  - intros k h. apply bit_BloomFilter2. lia.
Qed.

Lemma SetLog2NumBits_resizes_witness :
  let bf := snd (@Insert linux_x86_64 N unsigned_long_Element 1%N
                   BloomFilter0) in
  0 <= 4 <= 33
  /\ fst (SetLog2NumBits 4 bf) = true
  /\ NumBits (snd (SetLog2NumBits 4 bf)) = 2 ^ 4.
Proof.
  intros bf.
  assert (0 <= 4 <= 33) as He by lia.
  split; [exact He|].
  destruct (SetLog2NumBits_resizes 4 bf He) as (Hr & HN & _).
  exact (conj Hr HN).
Defined.

(** The claim as the specification has it fails: in the default filter,
    after [Insert(1)], the successful call [SetLog2NumBits(8)] leaves the
    bit at position 1 set. *)
Lemma SetLog2NumBits_not_reset :
  let bf := snd (@Insert linux_x86_64 N unsigned_long_Element 1%N
                   BloomFilter0) in
  fst (SetLog2NumBits 8 bf) = true
  /\ NumBits (snd (SetLog2NumBits 8 bf)) = 2 ^ 8
  /\ ~ (forall (i : nat) (b : bool),
          filter_ (snd (SetLog2NumBits 8 bf)) !! i = Some b -> b = false).
Proof.
  intros bf. split; [reflexivity|]. split; [reflexivity|].
  intros Hall. specialize (Hall 1%nat true eq_refl). discriminate Hall.
Qed.

(** C5. [SetLog2NumBits(e)] with [e > 33] makes the bit array exactly
    [2^33] bits, sets the size-error flag and returns false; with
    [e <= 33] it makes the array [2^e] bits, clears the flag and returns
    true.  A filter constructed with an exponent above 33 has [2^33] bits
    and the size-error flag set, satisfies the class invariant, probes
    inside the array only, reports a value absent before any insertion and
    present after its insertion, whatever insertions and queries
    follow. *)
Theorem SetLog2NumBits_clamp `{Platform} {T : Type} `{Element T} :
  (forall e bf, 33 < e ->
     fst (SetLog2NumBits e bf) = false
     /\ NumBits (snd (SetLog2NumBits e bf)) = 2 ^ 33
     /\ has_flag (snd (SetLog2NumBits e bf)) kHasLog2NumBitsError = true)
  /\ (forall e bf, 0 <= e <= 33 ->
        fst (SetLog2NumBits e bf) = true
        /\ NumBits (snd (SetLog2NumBits e bf)) = 2 ^ e
        /\ has_flag (snd (SetLog2NumBits e bf)) kHasLog2NumBitsError = false)
  /\ (forall e k (entry : T), 33 < e -> is_size_t k ->
        let bf := BloomFilter2 e k in
        NumBits bf = 2 ^ 33
        /\ has_flag bf kHasLog2NumBitsError = true
        /\ wf bf
        /\ Forall (fun h => 0 <= h < 2 ^ 33) (Hash bf entry)
        /\ fst (Contains entry bf) = false
        /\ forall calls : list call,
             Forall insert_or_contains calls ->
             fst (Contains entry
                    (snd (exec_all calls (snd (Insert entry bf)))))
             = true).
Proof.
  split; [|split].
  - intros e bf He. split; [|split].
    + rewrite SetLog2NumBits_eq. now destruct (Z.ltb_spec 33 e); [|lia].
    + rewrite NumBits_SetLog2NumBits by lia.
      now destruct (Z.ltb_spec 33 e); [|lia].
    + rewrite SetLog2NumBits_eq. destruct (Z.ltb_spec 33 e); [|lia].
      cbn [snd]. apply has_flag_true; [|discriminate].
      apply flag_set_1.
  - intros e bf He. split; [|split].
    + rewrite SetLog2NumBits_eq. now destruct (Z.ltb_spec 33 e); [lia|].
    + rewrite NumBits_SetLog2NumBits by lia.
      now destruct (Z.ltb_spec 33 e); [lia|].
    + rewrite SetLog2NumBits_eq. destruct (Z.ltb_spec 33 e); [lia|].
      cbn [snd]. apply has_flag_false. apply flag_clear_1.
  - intros e k entry He Hk bf.
    assert (wf bf) as Hwf by (apply wf_BloomFilter2; [lia | apply Hk]).
    assert (NumBits bf = 2 ^ 33) as HN.
    { subst bf. rewrite BloomFilter2_eq, NumBits_SetNumHashes.
      rewrite NumBits_SetLog2NumBits by lia.
      now destruct (Z.ltb_spec 33 e); [|lia]. }
    split; [exact HN|]. split; [|split; [exact Hwf|split; [|split]]].
    + unfold has_flag. subst bf. rewrite ParameterErrorFlags_BloomFilter2.
      destruct (Z.ltb_spec 33 e); [|lia]. now destruct (k <? 1).
    + rewrite <- HN. now apply Hash_in_range.
    + apply not_true_iff_false. rewrite Contains_true.
      destruct Hwf as [[e' [He' HN']] Hk'].
      rewrite (Hash_eq_spec bf e') by (assumption || lia).
      unfold Hash_spec. inversion 1 as [|? ? Hbit _]; subst.
      subst bf. rewrite bit_BloomFilter2 in Hbit by lia. discriminate.
    + intros calls Hcalls.
      apply Contains_after_Insert with (bf := bf); [exact Hwf|].
      now apply exec_all_extends.
Qed.

Lemma SetLog2NumBits_clamp_witness :
  33 < 34 /\ is_size_t 5
  /\ NumBits (BloomFilter2 34 5) = 2 ^ 33
  /\ has_flag (BloomFilter2 34 5) kHasLog2NumBitsError = true
  /\ fst (@Contains linux_x86_64 N unsigned_long_Element 7%N
            (snd (@Insert linux_x86_64 N unsigned_long_Element 7%N
                    (BloomFilter2 34 5))))
     = true.
Proof.
  assert (33 < 34) as He by lia.
  assert (is_size_t 5) as Hk by (split; [discriminate | reflexivity]).
  split; [exact He|]. split; [exact Hk|].
  destruct (@SetLog2NumBits_clamp linux_x86_64 N unsigned_long_Element)
    as (_ & _ & Hc).
  destruct (Hc 34 5 7%N He Hk) as (HN & Hf & _ & _ & _ & Hins).
  split; [exact HN|]. split; [exact Hf|].
  exact (Hins [] (List.Forall_nil _)).
Defined.

(** C6. [SetNumHashes(k)] with [k < 1] sets the number of hash functions
    to 1, sets the hash-count error flag and returns false; with [k >= 1]
    it sets the number to [k], clears the flag and returns true.  So the
    number of hash functions is at least 1 in every object that a
    constructor has built and the public member functions have then
    changed. *)
Theorem SetNumHashes_clamp `{Platform} {T : Type} `{Element T} :
  (forall k bf, k < 1 ->
     fst (SetNumHashes k bf) = false
     /\ NumHashes (snd (SetNumHashes k bf)) = 1
     /\ has_flag (snd (SetNumHashes k bf)) kHasNumHashesError = true)
  /\ (forall k bf, 1 <= k ->
        fst (SetNumHashes k bf) = true
        /\ NumHashes (snd (SetNumHashes k bf)) = k
        /\ has_flag (snd (SetNumHashes k bf)) kHasNumHashesError = false)
  /\ (forall num_bits num_hashes,
        1 <= NumHashes (BloomFilter2 num_bits num_hashes)
        /\ 1 <= NumHashes (BloomFilter1 num_bits)
        /\ 1 <= NumHashes BloomFilter0)
  /\ (forall bf, reachable (T := T) bf -> 1 <= NumHashes bf).
Proof.
  split; [|split; [|split]].
  - intros k bf Hk. rewrite SetNumHashes_eq.
    destruct (Z.ltb_spec k 1); [|lia]. cbn [fst snd].
    repeat split. apply has_flag_true; [apply flag_set_2 | discriminate].
  - intros k bf Hk. rewrite SetNumHashes_eq.
    destruct (Z.ltb_spec k 1); [lia|]. cbn [fst snd].
    repeat split. apply has_flag_false, flag_clear_2.
  - assert (forall e k, 1 <= NumHashes (BloomFilter2 e k)) as H2.
    { intros e k. rewrite BloomFilter2_eq, NumHashes_SetNumHashes.
      destruct (Z.ltb_spec k 1); lia. }
    intros e k. repeat split; apply H2.
  - intros bf Hr. apply reachable_wf in Hr. apply Hr.
Qed.

Lemma SetNumHashes_clamp_witness :
  let bf := snd (@exec linux_x86_64 N unsigned_long_Element
                   (CallSetNumHashes 0) (BloomFilter2 2 0)) in
  0 < 1 /\ 1 <= 7
  /\ reachable (H := linux_x86_64) (T := N) (H0 := unsigned_long_Element) bf
  /\ NumHashes (snd (SetNumHashes 0 BloomFilter0)) = 1
  /\ NumHashes (snd (SetNumHashes 7 BloomFilter0)) = 7
  /\ 1 <= NumHashes bf.
Proof.
  intros bf.
  assert (0 < 1) as H0 by lia.
  assert (1 <= 7) as H7 by lia.
  assert (reachable (H := linux_x86_64) (T := N)
            (H0 := unsigned_long_Element) bf) as Hr.
  { apply reachable_call.
    - apply reachable_new; split; (discriminate || reflexivity).
    - split; [discriminate | reflexivity]. }
  destruct (@SetNumHashes_clamp linux_x86_64 N unsigned_long_Element)
    as (Hlt & Hge & _ & Hreach).
  split; [exact H0|]. split; [exact H7|]. split; [exact Hr|].
  split; [apply (Hlt 0 BloomFilter0 H0)|].
  split; [apply (Hge 7 BloomFilter0 H7)|].
  exact (Hreach bf Hr).
Defined.

(** The number of bits of a filter that [BloomFilter(e)] constructed. *)
Lemma NumBits_BloomFilter1 e :
  0 <= e -> NumBits (BloomFilter1 e) = if 33 <? e then 2 ^ 33 else 2 ^ e.
Proof.
  intros He. unfold BloomFilter1.
  rewrite BloomFilter2_eq, NumBits_SetNumHashes.
  now rewrite NumBits_SetLog2NumBits by lia.
Qed.

(** The optimum that [SetOptimalNumHashes] passes on is the floor of
    [ln 2 * NumBits() / max_num_entries] wherever that fits an [int]. *)
Lemma SetOptimalNumHashes_optimum `{Platform} max_num_entries bf :
  wf bf -> 1 <= max_num_entries < 2 ^ 64 ->
  let k := Zfloor (ln 2 * IZR (NumBits bf) / IZR max_num_entries) in
  k < 2 ^ 31 ->
  0 <= k
  /\ to_size_t
       (b64_to_int
          (b64_div (b64_mul std_log_2 (b64_of_size_t (NumBits bf)))
                   (b64_of_size_t max_num_entries))) = k.
Proof.
  intros [(e & He & HN) _] Hm k Hk. subst k. rewrite HN in *.
  rewrite (optimum_floor e max_num_entries He Hm) in *.
  rewrite (optimum_in_range e max_num_entries He Hm Hk).
  pose proof (kc_bounds e max_num_entries He Hm) as [Hk0 _].
  split; [exact Hk0|].
  apply to_size_t_small. unfold is_size_t. rewrite size_t_modulus_eq.
  split; [exact Hk0|].
  apply Z.lt_trans with (2 ^ 31); [exact Hk | reflexivity].
Qed.

(** The number of hash functions that [SetOptimalNumHashes] sets is an
    [int] converted to [std::size_t], whatever the platform: it is below
    [2^31], or at least [2^64 - 2^31]. *)
Lemma SetOptimalNumHashes_int_image `{Platform} max_num_entries bf :
  let k' := NumHashes (snd (SetOptimalNumHashes max_num_entries bf)) in
  1 <= k' < 2 ^ 31 \/ 2 ^ 64 - 2 ^ 31 <= k' < 2 ^ 64.
Proof.
  rewrite SetOptimalNumHashes_eq. cbv zeta. cbn [fst snd].
  match goal with
  | |- context [to_size_t (b64_to_int ?d) <? 1] =>
      pose proof (b64_to_int_range d) as Hint;
      set (v := b64_to_int d) in *
  end.
  unfold to_size_t. rewrite size_t_modulus_eq.
  pose proof (Z.mod_pos_bound v (2 ^ 64) eq_refl) as Hmod.
  assert (v mod 2 ^ 64 = v \/ v mod 2 ^ 64 = v + 2 ^ 64) as Hcase.
  { destruct (Z_lt_le_dec v 0).
    - right. symmetry. apply Z.mod_unique with (-1); lia.
    - left. apply Z.mod_small. lia. }
  set (c := v mod 2 ^ 64) in *.
  change (2 ^ 31) with 2147483648 in *.
  change (2 ^ 64) with 18446744073709551616 in *.
  unfold NumHashes. cbn [num_hashes_]. destruct (Z.ltb_spec c 1); lia.
Qed.

(** C4, as the code has it.  [SetOptimalNumHashes(n)] leaves the
    hash-count error flag clear, whatever that flag was, and every other
    flag, the bit array and the inserted count as they were;
    [HasParameterError()] is therefore false after the call exactly when
    no flag other than the hash-count one was set before it.  Where it
    returns false it has set the number of hash functions to 1.  On a
    filter that satisfies the class invariant, with [1 <= n < 2^64] and
    [k = floor(ln 2 * NumBits() / n)] below [2^31], the number of hash
    functions becomes [k], or 1 when [k < 1], and the call returns true
    exactly when [k >= 1]. *)
Theorem SetOptimalNumHashes_clears_own_flag `{Platform}
    (max_num_entries : Z) (bf : BloomFilter) :
  let r := SetOptimalNumHashes max_num_entries bf in
  let bf' := snd r in
  (has_flag bf' kHasNumHashesError = false
   /\ has_flag bf' kHasLog2NumBitsError = has_flag bf kHasLog2NumBitsError
   /\ filter_ bf' = filter_ bf
   /\ Size bf' = Size bf
   /\ HasParameterError bf'
      = negb (Z.land (ParameterErrorFlags bf) (Z.lnot kHasNumHashesError)
              =? 0)
   /\ (fst r = false -> NumHashes bf' = 1))
  /\ (wf bf -> 1 <= max_num_entries < 2 ^ 64 ->
      let k := Zfloor (ln 2 * IZR (NumBits bf) / IZR max_num_entries) in
      k < 2 ^ 31 ->
      NumHashes bf' = Z.max 1 k /\ fst r = (1 <=? k)).
Proof.
  intros r bf'. subst bf' r. split.
  - rewrite SetOptimalNumHashes_eq. cbv zeta. cbn [fst snd].
    split; [apply has_flag_false, flag_clear_2|].
    split.
    { unfold has_flag, ParameterErrorFlags. cbn [parameter_error_flags_].
      unfold kHasNumHashesError, kHasLog2NumBitsError.
      now rewrite flag_clear_2_other. }
    split; [reflexivity|]. split; [reflexivity|]. split; [reflexivity|].
    unfold NumHashes. cbn [num_hashes_].
    match goal with
    | |- context [?c <? 1] => destruct (c <? 1)
    end; [reflexivity | discriminate].
  - intros Hwf Hm k Hk.
    destruct (SetOptimalNumHashes_optimum max_num_entries bf Hwf Hm Hk)
      as [Hk0 Ek].
    fold k in Hk0, Ek.
    rewrite SetOptimalNumHashes_eq. cbv zeta. cbn [fst snd].
    rewrite Ek. unfold NumHashes. cbn [num_hashes_].
    rewrite Z.leb_antisym.
    destruct (Z.ltb_spec k 1); split; [lia | reflexivity | lia | reflexivity].
Qed.

(** The repository's test [OptimalNumHashes]: on a filter of 4 bits,
    [SetOptimalNumHashes(2)] returns true; [floor(ln 2 * 4 / 2)] is 1. *)
Lemma SetOptimalNumHashes_clears_own_flag_witness :
  let bf := BloomFilter1 2 in
  let r := @SetOptimalNumHashes linux_x86_64 2 bf in
  wf bf
  /\ 1 <= 2 < 2 ^ 64
  /\ Zfloor (ln 2 * IZR (NumBits bf) / IZR 2) = 1
  /\ NumHashes (snd r) = 1
  /\ fst r = true.
Proof.
  intros bf r.
  assert (wf bf) as Hwf.
  { apply wf_BloomFilter2; [lia | reflexivity]. }
  assert (1 <= 2 < 2 ^ 64) as Hm by (split; [lia | reflexivity]).
  assert (Zfloor (ln 2 * IZR (NumBits bf) / IZR 2) = 1) as Ek.
  { subst bf. rewrite NumBits_BloomFilter1 by lia.
    change (if 33 <? 2 then 2 ^ 33 else 2 ^ 2) with (2 ^ 2).
    rewrite (@optimum_floor 2 2 ltac:(lia) Hm). reflexivity. }
  split; [exact Hwf|]. split; [exact Hm|]. split; [exact Ek|].
  destruct (@SetOptimalNumHashes_clears_own_flag linux_x86_64 2 bf)
    as [_ Hin].
  specialize (Hin Hwf Hm). cbv zeta in Hin. rewrite Ek in Hin.
  apply Hin. reflexivity.
Defined.

(** The claim as the specification has it fails in three ways.  A filter
    constructed with exponent 34 has the size-error flag set;
    [SetOptimalNumHashes(2^40)] computes an optimum below 1 and sets the
    number of hash functions to 1, and [HasParameterError()] is still true
    after the call.  On a filter of [2^32] bits, [floor(ln 2 * 2^32 / 1)]
    is 2977044471, which no [int] holds, so that the number of hash
    functions cannot be that optimum ([SetOptimalNumHashes_int_image]);
    on x86-64 [SetOptimalNumHashes(1)] sets it to [INT_MIN] converted to
    [std::size_t], [2^64 - 2^31].  With no entries expected the quotient
    is an infinity: on a filter of 4 bits [SetOptimalNumHashes(0)] returns
    true on x86-64, with the same number of hash functions. *)
Lemma SetOptimalNumHashes_error_remains :
  let bf := BloomFilter1 34 in
  let r := @SetOptimalNumHashes linux_x86_64 (2 ^ 40) bf in
  let bf2 := BloomFilter1 32 in
  let r2 := @SetOptimalNumHashes linux_x86_64 1 bf2 in
  let r3 := @SetOptimalNumHashes linux_x86_64 0 (BloomFilter1 2) in
  (Zfloor (ln 2 * IZR (NumBits bf) / IZR (2 ^ 40)) = 0
   /\ fst r = false
   /\ NumHashes (snd r) = 1
   /\ HasParameterError (snd r) = true)
  /\ (wf bf2
      /\ Zfloor (ln 2 * IZR (NumBits bf2) / IZR 1) = 2977044471
      /\ NumHashes (snd r2) = 2 ^ 64 - 2 ^ 31)
  /\ (fst r3 = true /\ NumHashes (snd r3) = 2 ^ 64 - 2 ^ 31).
Proof.
  intros bf r bf2 r2 r3.
  assert (NumBits bf = 2 ^ 33) as HN
    by (subst bf; now rewrite NumBits_BloomFilter1 by lia).
  assert (NumBits bf2 = 2 ^ 32) as HN2
    by (subst bf2; now rewrite NumBits_BloomFilter1 by lia).
  assert (ParameterErrorFlags bf = 1) as Hf.
  { subst bf. unfold BloomFilter1.
    now rewrite ParameterErrorFlags_BloomFilter2. }
  assert (to_size_t
            (@b64_to_int linux_x86_64
               (b64_div (b64_mul std_log_2 (b64_of_size_t (2 ^ 33)))
                        (b64_of_size_t (2 ^ 40)))) = 0) as Ec
    by (vm_compute; reflexivity).
  assert (to_size_t
            (@b64_to_int linux_x86_64
               (b64_div (b64_mul std_log_2 (b64_of_size_t (2 ^ 32)))
                        (b64_of_size_t 1))) = 2 ^ 64 - 2 ^ 31) as Ec2
    by (vm_compute; reflexivity).
  split; [|split].
  - split.
    { rewrite HN.
      rewrite (@optimum_floor 33 (2 ^ 40) ltac:(lia)
                 ltac:(split; [lia | reflexivity])).
      reflexivity. }
    subst r. rewrite SetOptimalNumHashes_eq. cbv zeta. rewrite HN, Ec.
    cbn [fst snd Z.ltb Z.compare negb]. unfold ParameterErrorFlags in Hf.
    split; [reflexivity|]. split; [reflexivity|].
    unfold HasParameterError. cbn [parameter_error_flags_]. now rewrite Hf.
  - split.
    { subst bf2. apply wf_BloomFilter2; [lia | reflexivity]. }
    split.
    { rewrite HN2.
      rewrite (@optimum_floor 32 1 ltac:(lia)
                 ltac:(split; [lia | reflexivity])).
      reflexivity. }
    subst r2. rewrite SetOptimalNumHashes_eq. cbv zeta. rewrite HN2, Ec2.
    reflexivity.
  - subst r3. split; vm_compute; reflexivity.
Qed.

(** ** Further properties of the bit array *)

Lemma set_bits_lookup hashes f (i : nat) :
  set_bits hashes f !! i
  = (fun b => b || existsb (fun h => Nat.eqb (Z.to_nat h) i) hashes)
      <$> (f !! i).
Proof.
  revert f. induction hashes as [|h hs IH]; intros f.
  - cbn. destruct (f !! i); cbn; [now rewrite orb_false_r | reflexivity].
  - change (set_bits (h :: hs) f)
      with (set_bits hs (<[Z.to_nat h := true]> f)).
    rewrite IH. cbn [existsb].
    destruct (Nat.eqb_spec (Z.to_nat h) i) as [<-|Hne].
    + destruct (f !! Z.to_nat h) as [b|] eqn:E.
      * rewrite list_lookup_insert_eq by (now apply lookup_lt_Some in E).
        cbn. now rewrite orb_true_r.
      * rewrite list_insert_ge by (now apply lookup_ge_None in E).
        now rewrite E.
    + rewrite list_lookup_insert_ne by assumption. reflexivity.
Qed.

Lemma existsb_to_nat_In hashes h :
  0 <= h -> Forall (fun h' => 0 <= h') hashes ->
  existsb (fun h' => Nat.eqb (Z.to_nat h') (Z.to_nat h)) hashes = true
  <-> In h hashes.
Proof.
  intros Hh Hnn. rewrite existsb_exists. split.
  - intros [h' [Hin Heq]]. apply Nat.eqb_eq in Heq.
    rewrite Forall_forall in Hnn.
    assert (0 <= h') by (apply Hnn; now apply list_elem_of_In).
    replace h with h' by lia. exact Hin.
  - intros Hin. exists h. split; [exact Hin | apply Nat.eqb_refl].
Qed.

Lemma Hash_nonneg `{Platform} {T : Type} `{Element T} bf (entry : T) :
  wf bf -> Forall (fun h => 0 <= h) (Hash bf entry).
Proof.
  intros Hwf. eapply Forall_impl; [apply (Hash_in_range bf entry Hwf)|].
  cbn. intros h Hh. apply Hh.
Qed.

Lemma bit_set_bits hashes bf h k s fl :
  bit (mkBloomFilter (set_bits hashes (filter_ bf)) k s fl) h
  = match filter_ bf !! Z.to_nat h with
    | Some b =>
        b || existsb (fun h' => Nat.eqb (Z.to_nat h') (Z.to_nat h)) hashes
    | None => false
    end.
Proof.
  unfold bit. cbn [filter_]. rewrite set_bits_lookup.
  now destruct (filter_ bf !! Z.to_nat h).
Qed.

Lemma in_range_lookup bf h :
  0 <= h < NumBits bf -> exists b, filter_ bf !! Z.to_nat h = Some b.
Proof.
  intros Hh. unfold NumBits in Hh.
  destruct (filter_ bf !! Z.to_nat h) as [b|] eqn:E; [now exists b|].
  apply lookup_ge_None in E. lia.
Qed.

Section MoreInsertContains.
Context `{Platform} {T : Type} `{Element T}.

Lemma bit_Insert (entry : T) bf h :
  wf bf -> 0 <= h ->
  bit (snd (Insert entry bf)) h = true
  <-> bit bf h = true \/ In h (Hash bf entry).
Proof.
  intros Hwf Hh. rewrite Insert_eq. cbn [snd]. rewrite bit_set_bits.
  pose proof (Hash_nonneg bf entry Hwf) as Hnn.
  pose proof (Hash_in_range bf entry Hwf) as Hr.
  unfold bit. destruct (filter_ bf !! Z.to_nat h) as [b|] eqn:E; cbn.
  - rewrite orb_true_iff, (existsb_to_nat_In _ h Hh Hnn). reflexivity.
  - split; [discriminate|]. intros [Hf|Hin]; [discriminate|].
    rewrite Forall_forall in Hr. apply list_elem_of_In, Hr in Hin.
    destruct (in_range_lookup bf h Hin) as [b Hb]. congruence.
Qed.

Lemma Contains_extends (entry : T) bf bf' :
  extends bf bf' -> fst (Contains entry bf) = true ->
  fst (Contains entry bf') = true.
Proof.
  intros (HN & Hk & Hb). rewrite !Contains_true.
  rewrite (Hash_ext bf bf') by assumption.
  intros HF. eapply Forall_impl; [exact HF | exact Hb].
Qed.

Lemma insert_loop_cons (entry : T) rest bf :
  snd (main.insert_loop (entry :: rest) bf)
  = snd (main.insert_loop rest (snd (Insert entry bf))).
Proof. cbn [main.insert_loop]. apply bind_snd. Qed.

Lemma insert_loop_extends (test_set : list T) bf :
  extends bf (snd (main.insert_loop test_set bf)).
Proof.
  revert bf. induction test_set as [|entry rest IH]; intros bf.
  - apply extends_refl.
  - rewrite insert_loop_cons.
    eapply extends_trans; [apply Insert_extends | apply IH].
Qed.

Lemma bit_insert_loop (test_set : list T) bf h :
  wf bf -> 0 <= h ->
  bit (snd (main.insert_loop test_set bf)) h = true
  <-> bit bf h = true \/ exists entry, In entry test_set /\ In h (Hash bf entry).
Proof.
  intros Hwf Hh. revert bf Hwf.
  induction test_set as [|entry rest IH]; intros bf Hwf.
  - cbn. split; [now left | intros [Hb|[e [[] _]]]; exact Hb].
  - rewrite insert_loop_cons.
    pose proof (Insert_extends entry bf) as Hext.
    rewrite IH by (eapply wf_extends; eassumption).
    rewrite bit_Insert by assumption.
    destruct Hext as (HN & Hk & _).
    split.
    + intros [[Hb|Hin]|[e [Hine Hinh]]].
      * now left.
      * right. exists entry. split; [now left | exact Hin].
      * right. exists e. split; [now right|].
        now rewrite <- (Hash_ext bf (snd (Insert entry bf))).
    + intros [Hb|[e [[->|Hine] Hinh]]].
      * left. now left.
      * left. now right.
      * right. exists e. split; [exact Hine|].
        now rewrite (Hash_ext bf (snd (Insert entry bf))).
Qed.

Lemma count_loop_frame (set : list T) count bf :
  snd (main.count_loop set count bf) = bf.
Proof.
  revert count. induction set as [|entry rest IH]; intros count;
    [reflexivity|].
  cbn [main.count_loop]. unfold bind.
  pose proof (Contains_frame entry bf) as Hf.
  destruct (Contains entry bf) as [b bf']. cbn [snd] in Hf. subst bf'.
  apply IH.
Qed.

Lemma count_loop_all (set : list T) count bf :
  is_size_t count ->
  Forall (fun entry => fst (Contains entry bf) = true) set ->
  fst (main.count_loop set count bf)
  = to_size_t (count + Z.of_nat (length set)).
Proof.
  intros Hc Hall. revert count Hc.
  induction Hall as [|entry rest Hin _ IH]; intros count Hc.
  - cbn. rewrite Z.add_0_r. symmetry. now apply to_size_t_small.
  - cbn [main.count_loop]. unfold bind.
    pose proof (Contains_frame entry bf) as Hf.
    destruct (Contains entry bf) as [b bf']. cbn [fst snd] in Hin, Hf.
    subst b bf'. rewrite IH by apply to_size_t_range.
    unfold add. rewrite to_size_t_add_l. f_equal. cbn [length]. lia.
Qed.

End MoreInsertContains.

Lemma set_bits_idempotent hashes f :
  set_bits hashes (set_bits hashes f) = set_bits hashes f.
Proof.
  apply list_eq. intros i. rewrite !set_bits_lookup.
  destruct (f !! i) as [b|]; cbn; [|reflexivity].
  now rewrite <- orb_assoc, orb_diag.
Qed.

Lemma set_bits_commute hashes1 hashes2 f :
  set_bits hashes2 (set_bits hashes1 f) = set_bits hashes1 (set_bits hashes2 f).
Proof.
  apply list_eq. intros i. rewrite !set_bits_lookup.
  destruct (f !! i) as [b|]; cbn; [|reflexivity].
  f_equal. rewrite <- !orb_assoc. f_equal. apply orb_comm.
Qed.

Lemma Hash_after_Insert `{Platform} {T : Type} `{Element T}
    (entry entry' : T) bf :
  Hash (snd (Insert entry bf)) entry' = Hash bf entry'.
Proof.
  destruct (Insert_extends entry bf) as (HN & Hk & _). now apply Hash_ext.
Qed.

(** X1. [Insert] sets exactly the bits at the probe positions of the
    entry: in an object satisfying the class invariant, a bit is set after
    [Insert(entry)] if and only if it was set before or its position is one
    of [Hash(entry)].  The number of bits, the number of hash functions and
    the error flags are unchanged, and the inserted count grows by one
    (modulo 2^64). *)
Theorem Insert_sets_exactly_the_probes `{Platform} {T : Type} `{Element T}
    (bf : BloomFilter) (entry : T) :
  wf bf ->
  let bf' := snd (Insert entry bf) in
  NumBits bf' = NumBits bf
  /\ NumHashes bf' = NumHashes bf
  /\ ParameterErrorFlags bf' = ParameterErrorFlags bf
  /\ Size bf' = (Size bf + 1) mod 2 ^ 64
  /\ forall h, 0 <= h ->
       (bit bf' h = true <-> bit bf h = true \/ In h (Hash bf entry)).
Proof.
  intros Hwf bf'. destruct (Insert_extends entry bf) as (HN & Hk & _).
  split; [exact HN|]. split; [exact Hk|].
  split; [subst bf'; now rewrite Insert_eq|].
  split; [subst bf'; now rewrite Insert_eq|].
  intros h Hh. now apply bit_Insert.
Qed.

Lemma Insert_sets_exactly_the_probes_witness :
  let bf' := snd (@Insert linux_x86_64 N unsigned_long_Element 1%N
                    BloomFilter0) in
  wf BloomFilter0
  /\ NumBits bf' = NumBits BloomFilter0
  /\ Size bf' = (Size BloomFilter0 + 1) mod 2 ^ 64.
Proof.
  intros bf'.
  assert (wf BloomFilter0) as Hwf.
  { split; [exists 8; split; [lia | reflexivity] |].
    split; [discriminate | reflexivity]. }
  split; [exact Hwf|].
  destruct (@Insert_sets_exactly_the_probes linux_x86_64 N
              unsigned_long_Element BloomFilter0 1%N Hwf)
    as (HN & _ & _ & HS & _).
  exact (conj HN HS).
Defined.

(** X2. Inserting an entry a second time leaves the bit array as the
    first insertion left it; only the inserted count changes. *)
Theorem Insert_twice_same_bits `{Platform} {T : Type} `{Element T}
    (bf : BloomFilter) (entry : T) :
  filter_ (snd (Insert entry (snd (Insert entry bf))))
  = filter_ (snd (Insert entry bf)).
Proof.
  rewrite (Insert_eq entry (snd (Insert entry bf))).
  rewrite Hash_after_Insert, Insert_eq. cbn [snd filter_].
  apply set_bits_idempotent.
Qed.

(** X3. The bit array does not depend on the order of insertion:
    inserting [a] then [b] gives the same bits as inserting [b] then
    [a]. *)
Theorem Insert_order_irrelevant `{Platform} {T : Type} `{Element T}
    (bf : BloomFilter) (a b : T) :
  filter_ (snd (Insert b (snd (Insert a bf))))
  = filter_ (snd (Insert a (snd (Insert b bf)))).
Proof.
  rewrite (Insert_eq b (snd (Insert a bf))), (Insert_eq a (snd (Insert b bf))).
  rewrite !Hash_after_Insert, !Insert_eq. cbn [snd filter_].
  apply set_bits_commute.
Qed.

(** X4. A positive answer is never lost by inserting: if
    [Contains(entry)] is true, it is still true after any sequence of
    [Insert] and [Contains] calls. *)
Theorem Contains_stays_true `{Platform} {T : Type} `{Element T}
    (bf : BloomFilter) (calls : list call) (entry : T) :
  Forall insert_or_contains calls ->
  fst (Contains entry bf) = true ->
  fst (Contains entry (snd (exec_all calls bf))) = true.
Proof.
  intros Hcalls. apply Contains_extends. now apply exec_all_extends.
Qed.

Lemma Contains_stays_true_witness :
  let bf := snd (@Insert linux_x86_64 N unsigned_long_Element 1%N
                   BloomFilter0) in
  let calls := [CallInsert 2%N; CallContains 3%N; CallInsert 3%N] in
  Forall insert_or_contains calls
  /\ fst (@Contains linux_x86_64 N unsigned_long_Element 1%N bf) = true
  /\ fst (@Contains linux_x86_64 N unsigned_long_Element 1%N
            (snd (@exec_all linux_x86_64 N unsigned_long_Element calls bf)))
     = true.
Proof.
  intros bf calls.
  assert (Forall insert_or_contains calls) as Hcalls.
  { repeat (constructor; [exact I|]). constructor. }
  assert (fst (@Contains linux_x86_64 N unsigned_long_Element 1%N bf) = true)
    as Hc by reflexivity.
  split; [exact Hcalls|]. split; [exact Hc|].
  apply (@Contains_stays_true linux_x86_64 N unsigned_long_Element
           bf calls 1%N Hcalls Hc).
Defined.

(** X5. What [Contains] answers after the filling loop of [main]: in an
    object satisfying the class invariant, after inserting the entries of
    [test_set], [Contains(entry)] is true if and only if every probe
    position of [entry] was set before the loop or is a probe position of
    some inserted entry.  So a false positive arises exactly when the
    probes of a value that was not inserted are all covered. *)
Theorem Contains_after_insert_loop `{Platform} {T : Type} `{Element T}
    (bf : BloomFilter) (test_set : list T) (entry : T) :
  wf bf ->
  fst (Contains entry (snd (main.insert_loop test_set bf))) = true
  <-> Forall (fun h => bit bf h = true
                       \/ exists e, In e test_set /\ In h (Hash bf e))
             (Hash bf entry).
Proof.
  intros Hwf. rewrite Contains_true.
  destruct (insert_loop_extends test_set bf) as (HN & Hk & _).
  rewrite (Hash_ext bf _ entry HN Hk).
  pose proof (Hash_nonneg bf entry Hwf) as Hnn.
  rewrite !Forall_forall in *.
  split; intros Hall h Hin; specialize (Hall h Hin);
    apply (bit_insert_loop test_set bf h Hwf (Hnn h Hin)); exact Hall.
Qed.

Lemma Contains_after_insert_loop_witness :
  wf BloomFilter0
  /\ (fst (@Contains linux_x86_64 N unsigned_long_Element 2%N
             (snd (@main.insert_loop linux_x86_64 N unsigned_long_Element
                     [1%N; 2%N] BloomFilter0)))
      = true
      <-> Forall (fun h => bit BloomFilter0 h = true
                   \/ exists e, In e [1%N; 2%N]
                        /\ In h (@Hash linux_x86_64 N unsigned_long_Element
                                   BloomFilter0 e))
                 (@Hash linux_x86_64 N unsigned_long_Element
                    BloomFilter0 2%N)).
Proof.
  assert (wf BloomFilter0) as Hwf.
  { split; [exists 8; split; [lia | reflexivity] |].
    split; [discriminate | reflexivity]. }
  split; [exact Hwf|].
  apply (@Contains_after_insert_loop linux_x86_64 N unsigned_long_Element
           BloomFilter0 [1%N; 2%N] 2%N Hwf).
Defined.

(** X6. The true-positive count of [main] is the number of entries: after
    the filling loop over [test_set], the counting loop over the same
    [test_set] counts every entry (modulo 2^64), and leaves the filter
    unchanged. *)
Theorem true_positive_count `{Platform} {T : Type} `{Element T}
    (bf : BloomFilter) (test_set : list T) :
  wf bf ->
  let filled := snd (main.insert_loop test_set bf) in
  fst (main.count_loop test_set 0 filled)
  = Z.of_nat (length test_set) mod 2 ^ 64
  /\ snd (main.count_loop test_set 0 filled) = filled.
Proof.
  intros Hwf filled. split; [|apply count_loop_frame].
  rewrite count_loop_all.
  - reflexivity.
  - split; [lia | apply size_t_modulus_pos].
  - subst filled. apply Forall_forall. intros entry Hin.
    apply list_elem_of_In, in_split in Hin.
    destruct Hin as (l1 & l2 & ->).
    assert (forall l bf0, wf bf0 ->
              wf (snd (main.insert_loop l bf0))) as Hwfl.
    { intros l bf0 Hwf0. eapply wf_extends; [exact Hwf0|].
      apply insert_loop_extends. }
    assert (forall l l' bf0,
              snd (main.insert_loop (l ++ l') bf0)
              = snd (main.insert_loop l' (snd (main.insert_loop l bf0))))
      as Happ.
    { induction l as [|x l IH]; intros l' bf0; [reflexivity|].
      rewrite <- app_comm_cons, !insert_loop_cons. apply IH. }
    rewrite Happ, insert_loop_cons.
    apply Contains_after_Insert with (bf := snd (main.insert_loop l1 bf)).
    + now apply Hwfl.
    + apply insert_loop_extends.
Qed.

Lemma true_positive_count_witness :
  wf BloomFilter0
  /\ fst (@main.count_loop linux_x86_64 N unsigned_long_Element
            [1%N; 2%N; 3%N] 0
            (snd (@main.insert_loop linux_x86_64 N unsigned_long_Element
                    [1%N; 2%N; 3%N] BloomFilter0)))
     = Z.of_nat (length [1%N; 2%N; 3%N]) mod 2 ^ 64.
Proof.
  assert (wf BloomFilter0) as Hwf.
  { split; [exists 8; split; [lia | reflexivity] |].
    split; [discriminate | reflexivity]. }
  split; [exact Hwf|].
  apply (@true_positive_count linux_x86_64 N unsigned_long_Element
           BloomFilter0 [1%N; 2%N; 3%N] Hwf).
Defined.

(** ** The inserted count *)

Section SizeFacts.
Context `{Platform} {T : Type} `{Element T}.

Lemma Size_exec (c : call) bf :
  Size (snd (exec c bf))
  = if is_insert c then add (Size bf) 1 else Size bf.
Proof.
  rewrite exec_snd. destruct c; cbn [is_insert].
  - now rewrite Insert_eq.
  - reflexivity.
  - rewrite SetLog2NumBits_eq. now destruct (33 <? log2_num_bits).
  - rewrite SetNumHashes_eq. now destruct (num_hashes <? 1).
  - now rewrite SetOptimalNumHashes_eq.
  - reflexivity.
Qed.

Lemma Size_exec_all (calls : list call) bf :
  is_size_t (Size bf) ->
  Size (snd (exec_all calls bf))
  = to_size_t (Size bf + Z.of_nat (count_inserts calls)).
Proof.
  revert bf. induction calls as [|c rest IH]; intros bf Hs.
  - cbn. rewrite Z.add_0_r. symmetry. now apply to_size_t_small.
  - rewrite exec_all_cons. cbn [snd]. unfold count_inserts in *.
    cbn [List.filter]. rewrite IH, Size_exec.
    + destruct (is_insert c); cbn [length].
      * unfold add. rewrite to_size_t_add_l. f_equal. lia.
      * reflexivity.
    + rewrite Size_exec. destruct (is_insert c);
        [apply to_size_t_range | exact Hs].
Qed.

End SizeFacts.

Lemma Size_BloomFilter2 e k : Size (BloomFilter2 e k) = 0.
Proof.
  rewrite BloomFilter2_eq, SetNumHashes_eq, SetLog2NumBits_eq.
  now destruct (33 <? e), (k <? 1).
Qed.

(** X7. [Size()] counts the [Insert] calls: on a filter built by a
    constructor, after any sequence of calls of the public member
    functions, [Size()] is the number of [Insert] calls in the sequence
    (modulo 2^64), whatever was inserted, repeated or not, and whatever
    setters were called in between. *)
Theorem Size_counts_inserts `{Platform} {T : Type} `{Element T}
    (num_bits num_hashes : Z) (calls : list call) :
  Size (snd (exec_all calls (BloomFilter2 num_bits num_hashes)))
  = Z.of_nat (count_inserts calls) mod 2 ^ 64.
Proof.
  rewrite Size_exec_all; rewrite Size_BloomFilter2.
  - reflexivity.
  - split; [lia | apply size_t_modulus_pos].
Qed.

(** ** The closed form of the probe sequence *)

Lemma consecutive_product_even i : exists q, i * (i + 1) = q * 2.
Proof.
  destruct (Z.Even_or_Odd i) as [[m ->]|[m ->]].
  - exists (m * (2 * m + 1)). lia.
  - exists ((2 * m + 1) * (m + 1)). lia.
Qed.

Lemma cube_minus_self_div_6 i : 0 <= i -> exists r, i * i * i - i = r * 6.
Proof.
  revert i. apply natlike_ind.
  - exists 0. reflexivity.
  - intros i Hi [r Hr]. destruct (consecutive_product_even i) as [q Hq].
    exists (r + q). unfold Z.succ. lia.
Qed.

Lemma tetrahedral_succ i :
  0 <= i ->
  ((i + 1) * (i + 1) * (i + 1) - (i + 1)) / 6
  = (i * i * i - i) / 6 + i * (i + 1) / 2.
Proof.
  intros Hi. destruct (cube_minus_self_div_6 i Hi) as [r Hr].
  destruct (consecutive_product_even i) as [q Hq].
  replace ((i + 1) * (i + 1) * (i + 1) - (i + 1)) with ((r + q) * 6) by lia.
  rewrite Hr, Hq, !Z.div_mul by lia. reflexivity.
Qed.

Lemma triangular_succ i : (i + 1) * (i + 1 + 1) / 2 = i * (i + 1) / 2 + (i + 1).
Proof.
  destruct (consecutive_product_even i) as [q Hq].
  replace ((i + 1) * (i + 1 + 1)) with ((q + (i + 1)) * 2) by lia.
  rewrite Hq, !Z.div_mul by lia. reflexivity.
Qed.

Lemma Hash_spec_from_closed_form N h1 h2 n :
  0 < N ->
  forall m a b (j : nat),
    0 <= m ->
    a = Hash_closed_form N h1 h2 m ->
    b = (h2 + m * (m + 1) / 2) mod N ->
    (j < n)%nat ->
    Hash_spec_from n (m + 1) a b N !! j
    = Some (Hash_closed_form N h1 h2 (m + 1 + Z.of_nat j)).
Proof.
  intros HN. induction n as [|n IH]; intros m a b j Hm Ha Hb Hj; [lia|].
  cbn [Hash_spec_from].
  assert ((a + b) mod N = Hash_closed_form N h1 h2 (m + 1)) as Ha'.
  { subst a b. unfold Hash_closed_form. rewrite <- Z.add_mod by lia.
    rewrite tetrahedral_succ by assumption. f_equal. lia. }
  destruct j as [|j].
  - cbn. rewrite Ha'. do 2 f_equal. lia.
  - assert ((b + (m + 1)) mod N
            = (h2 + (m + 1) * (m + 1 + 1) / 2) mod N) as Hb'.
    { subst b. rewrite Z.add_mod_idemp_l by lia.
      rewrite triangular_succ. f_equal. lia. }
    change ((?x :: ?l) !! S j) with (l !! j).
    rewrite (IH (m + 1) _ _ j ltac:(lia) Ha' Hb' ltac:(lia)).
    do 2 f_equal. lia.
Qed.

Lemma Hash_spec_from_take n m i a b N :
  take n (Hash_spec_from (n + m) i a b N) = Hash_spec_from n i a b N.
Proof.
  revert i a b. induction n as [|n IH]; intros i a b; [reflexivity|].
  cbn. now rewrite IH.
Qed.

Section MoreHashFacts.
Context `{Platform} {T : Type} `{Element T}.

Lemma FirstHash_range bf e (entry : T) :
  0 <= e <= 33 -> NumBits bf = 2 ^ e ->
  0 <= FirstHash bf entry < 2 ^ e.
Proof.
  intros He HN. unfold FirstHash. rewrite (ModNumBits_mod bf e) by assumption.
  apply Z.mod_pos_bound, Z.pow_pos_nonneg; lia.
Qed.

Lemma SecondHash_range bf e (entry : T) :
  0 <= e <= 33 -> NumBits bf = 2 ^ e ->
  0 <= SecondHash bf entry < 2 ^ e.
Proof.
  intros He HN. unfold SecondHash. rewrite (ModNumBits_mod bf e) by assumption.
  apply Z.mod_pos_bound, Z.pow_pos_nonneg; lia.
Qed.

Lemma hashes_same_NumBits bf bf' (entry : T) :
  NumBits bf' = NumBits bf ->
  FirstHash bf' entry = FirstHash bf entry
  /\ SecondHash bf' entry = SecondHash bf entry.
Proof.
  intros HN. unfold FirstHash, SecondHash, ModNumBits. now rewrite HN.
Qed.

End MoreHashFacts.

(** X8. The closed form in the documentation of [Hash] holds: in a filter
    satisfying the class invariant, for every index [i] below the number
    of hash functions,
    [hashes[i] = (h1 + i*h2 + (i*i*i - i)/6) mod NumBits()], with
    [h1 = FirstHash(entry)] and [h2 = SecondHash(entry)]. *)
Theorem Hash_closed_form_holds `{Platform} {T : Type} `{Element T}
    (bf : BloomFilter) (entry : T) (i : Z) :
  wf bf ->
  0 <= i < NumHashes bf ->
  Hash bf entry !! Z.to_nat i
  = Some (Hash_closed_form (NumBits bf) (FirstHash bf entry)
            (SecondHash bf entry) i).
Proof.
  intros [[e [He HN]] Hk] Hi.
  rewrite (Hash_eq_spec bf e) by (assumption || lia). rewrite HN.
  assert (0 < 2 ^ e) as Hpos by (apply Z.pow_pos_nonneg; lia).
  pose proof (FirstHash_range bf e entry He HN) as H1.
  pose proof (SecondHash_range bf e entry He HN) as H2.
  assert (Hash_closed_form (2 ^ e) (FirstHash bf entry)
            (SecondHash bf entry) 0 = FirstHash bf entry) as E0.
  { unfold Hash_closed_form. change ((0 * 0 * 0 - 0) / 6) with 0.
    rewrite Z.mul_0_l, !Z.add_0_r. now apply Z.mod_small. }
  unfold Hash_spec. destruct (Z.eq_dec i 0) as [->|Hne].
  - rewrite E0. reflexivity.
  - replace (Z.to_nat i) with (S (Z.to_nat (i - 1))) by lia.
    change ((?x :: ?l) !! S ?j) with (l !! j).
    rewrite (Hash_spec_from_closed_form (2 ^ e) (FirstHash bf entry)
               (SecondHash bf entry) _ Hpos 0).
    + do 2 f_equal. lia.
    + lia.
    + now rewrite E0.
    + change (0 * (0 + 1) / 2) with 0. rewrite Z.add_0_r.
      symmetry. now apply Z.mod_small.
    + lia.
Qed.

Lemma Hash_closed_form_holds_witness :
  wf BloomFilter0
  /\ 0 <= 3 < NumHashes BloomFilter0
  /\ @Hash linux_x86_64 N unsigned_long_Element BloomFilter0 1%N
       !! Z.to_nat 3
     = Some (Hash_closed_form (NumBits BloomFilter0)
               (@FirstHash N unsigned_long_Element BloomFilter0 1%N)
               (@SecondHash linux_x86_64 N unsigned_long_Element
                  BloomFilter0 1%N) 3).
Proof.
  assert (wf BloomFilter0) as Hwf.
  { split; [exists 8; split; [lia | reflexivity] |].
    split; [discriminate | reflexivity]. }
  assert (0 <= 3 < NumHashes BloomFilter0) as Hi.
  { split; [discriminate | reflexivity]. }
  split; [exact Hwf|]. split; [exact Hi|].
  apply (@Hash_closed_form_holds linux_x86_64 N unsigned_long_Element
           BloomFilter0 1%N 3 Hwf Hi).
Defined.

(** X9. Lowering the number of hash functions keeps positive answers: in
    a filter satisfying the class invariant, after [SetNumHashes(k)] with
    [1 <= k <= NumHashes()], the probe sequence of every entry is the
    first [k] positions of its former probe sequence, so an entry for
    which [Contains] was true is still reported present. *)
Theorem SetNumHashes_lower_keeps_members `{Platform} {T : Type} `{Element T}
    (bf : BloomFilter) (k : Z) (entry : T) :
  wf bf ->
  1 <= k <= NumHashes bf ->
  let bf' := snd (SetNumHashes k bf) in
  Hash bf' entry = take (Z.to_nat k) (Hash bf entry)
  /\ (fst (Contains entry bf) = true -> fst (Contains entry bf') = true).
Proof.
  intros [[e [He HN]] Hk] Hle bf'.
  assert (NumBits bf' = NumBits bf) as HN'
    by (subst bf'; apply NumBits_SetNumHashes).
  assert (NumHashes bf' = k) as Hk'.
  { subst bf'. rewrite NumHashes_SetNumHashes.
    destruct (Z.ltb_spec k 1); [lia | reflexivity]. }
  assert (Hash bf' entry = take (Z.to_nat k) (Hash bf entry)) as Htake.
  { rewrite (Hash_eq_spec bf' e), (Hash_eq_spec bf e);
      try (assumption || lia || congruence).
    destruct (hashes_same_NumBits bf bf' entry HN') as [-> ->].
    rewrite Hk'. unfold Hash_spec.
    replace (Z.to_nat k) with (S (Z.to_nat (k - 1))) by lia.
    replace (Z.to_nat (NumHashes bf - 1))
      with (Z.to_nat (k - 1) + Z.to_nat (NumHashes bf - k))%nat by lia.
    cbn [take]. now rewrite Hash_spec_from_take. }
  split; [exact Htake|].
  rewrite !Contains_true, Htake. intros Hall.
  apply Forall_take.
  eapply Forall_impl; [exact Hall|]. cbn. intros h.
  unfold bit. subst bf'. rewrite SetNumHashes_eq.
  now destruct (k <? 1).
Qed.

Lemma SetNumHashes_lower_keeps_members_witness :
  let bf := snd (@Insert linux_x86_64 N unsigned_long_Element 1%N
                   BloomFilter0) in
  wf bf
  /\ 1 <= 2 <= NumHashes bf
  /\ @Hash linux_x86_64 N unsigned_long_Element
       (snd (SetNumHashes 2 bf)) 1%N
     = take (Z.to_nat 2)
         (@Hash linux_x86_64 N unsigned_long_Element bf 1%N).
Proof.
  intros bf.
  assert (wf bf) as Hwf.
  { split; [exists 8; split; [lia | reflexivity] |].
    split; [discriminate | reflexivity]. }
  assert (1 <= 2 <= NumHashes bf) as Hk.
  { split; discriminate. }
  split; [exact Hwf|]. split; [exact Hk|].
  apply (@SetNumHashes_lower_keeps_members linux_x86_64 N
           unsigned_long_Element bf 2 1%N Hwf Hk).
Defined.

(** X10. No access outside the bit array: for every object built by a
    constructor and changed through the public member functions only, and
    for every entry, [Hash] returns [NumHashes()] positions (at least
    one), each of them a valid index of the bit array; the accesses
    [filter_[hash]] of [Insert] and [Contains] are all within bounds. *)
Theorem probes_within_bounds `{Platform} {T : Type} `{Element T}
    (bf : BloomFilter) (entry : T) :
  reachable (T := T) bf ->
  Z.of_nat (length (Hash bf entry)) = NumHashes bf
  /\ (1 <= length (Hash bf entry))%nat
  /\ Forall (fun h => 0 <= h /\ (Z.to_nat h < length (filter_ bf))%nat)
            (Hash bf entry).
Proof.
  intros Hr. apply reachable_wf in Hr.
  pose proof (Hash_length bf entry Hr) as Hl.
  split; [exact Hl|]. split; [destruct Hr as [_ Hk]; lia|].
  eapply Forall_impl; [apply (Hash_in_range bf entry Hr)|].
  cbn. unfold NumBits. intros h Hh. lia.
Qed.

Lemma probes_within_bounds_witness :
  let bf := snd (@exec linux_x86_64 N unsigned_long_Element
                   (CallSetLog2NumBits 3) (BloomFilter2 2 0)) in
  reachable (H := linux_x86_64) (T := N) (H0 := unsigned_long_Element) bf
  /\ Forall (fun h => 0 <= h /\ (Z.to_nat h < length (filter_ bf))%nat)
            (@Hash linux_x86_64 N unsigned_long_Element bf 9%N).
Proof.
  intros bf.
  assert (reachable (H := linux_x86_64) (T := N)
            (H0 := unsigned_long_Element) bf) as Hr.
  { apply reachable_call.
    - apply reachable_new; split; (discriminate || reflexivity).
    - split; [discriminate | reflexivity]. }
  split; [exact Hr|].
  apply (@probes_within_bounds linux_x86_64 N unsigned_long_Element
           bf 9%N Hr).
Defined.

(** ** Constructors and error flags *)

Lemma land_bounded_3 f x : 0 <= f <= 3 -> 0 <= Z.land f x <= 3.
Proof.
  intros Hf.
  assert (f = Z.land f (Z.ones 2)) as E.
  { rewrite Z.land_ones by lia. symmetry. apply Z.mod_small.
    change (2 ^ 2) with 4. lia. }
  rewrite E, <- Z.land_assoc, (Z.land_comm (Z.ones 2) x), Z.land_assoc.
  rewrite Z.land_ones by lia. change (2 ^ 2) with 4.
  pose proof (Z.mod_pos_bound (Z.land f x) 4 ltac:(lia)). lia.
Qed.

Lemma lor_bounded_3 f g : 0 <= f <= 3 -> 0 <= g <= 3 -> 0 <= Z.lor f g <= 3.
Proof.
  intros Hf Hg.
  assert (f = 0 \/ f = 1 \/ f = 2 \/ f = 3) as Ef by lia.
  assert (g = 0 \/ g = 1 \/ g = 2 \/ g = 3) as Eg by lia.
  destruct Ef as [->|[->|[->| ->]]], Eg as [->|[->|[->| ->]]];
    split; discriminate.
Qed.

Lemma HasParameterError_flags bf :
  0 <= ParameterErrorFlags bf <= 3 ->
  HasParameterError bf
  = has_flag bf kHasLog2NumBitsError || has_flag bf kHasNumHashesError.
Proof.
  unfold HasParameterError, has_flag, ParameterErrorFlags. intros Hf.
  assert (parameter_error_flags_ bf = 0 \/ parameter_error_flags_ bf = 1
          \/ parameter_error_flags_ bf = 2 \/ parameter_error_flags_ bf = 3)
    as E by lia.
  destruct E as [->|[->|[->| ->]]]; reflexivity.
Qed.

Lemma ParameterErrorFlags_exec `{Platform} {T : Type} `{Element T}
    (c : call) bf :
  0 <= ParameterErrorFlags bf <= 3 ->
  0 <= ParameterErrorFlags (snd (exec c bf)) <= 3.
Proof.
  intros Hf. rewrite exec_snd. unfold ParameterErrorFlags in *. destruct c.
  - now rewrite Insert_eq.
  - exact Hf.
  - rewrite SetLog2NumBits_eq.
    destruct (33 <? log2_num_bits); cbn [snd parameter_error_flags_].
    + apply lor_bounded_3; [exact Hf | unfold kHasLog2NumBitsError; lia].
    + now apply land_bounded_3.
  - rewrite SetNumHashes_eq.
    destruct (num_hashes <? 1); cbn [snd parameter_error_flags_].
    + apply lor_bounded_3; [exact Hf | unfold kHasNumHashesError; lia].
    + now apply land_bounded_3.
  - rewrite SetOptimalNumHashes_eq. cbn [snd parameter_error_flags_].
    now apply land_bounded_3.
  - rewrite ClearParameterError_eq. cbn [snd parameter_error_flags_].
    now apply land_bounded_3.
Qed.

Lemma NumBits_BloomFilter2 e k :
  0 <= e -> NumBits (BloomFilter2 e k) = 2 ^ Z.min e 33.
Proof.
  intros He. rewrite BloomFilter2_eq, NumBits_SetNumHashes.
  rewrite NumBits_SetLog2NumBits by assumption.
  destruct (Z.ltb_spec 33 e); f_equal; lia.
Qed.

Lemma NumHashes_BloomFilter2 e k : NumHashes (BloomFilter2 e k) = Z.max 1 k.
Proof.
  rewrite BloomFilter2_eq, NumHashes_SetNumHashes.
  destruct (Z.ltb_spec k 1); lia.
Qed.

(** X11. What the constructors build.  [BloomFilter(num_bits, num_hashes)]
    has [2^min(num_bits, 33)] bits, [max(1, num_hashes)] hash functions and
    inserted count 0; the size-error flag is set exactly when
    [num_bits > 33], the hash-count flag exactly when [num_hashes < 1], and
    [HasParameterError()] is true exactly when one of the two holds.  The
    one-argument constructor is the case [num_hashes = 5], the default
    constructor the case [num_bits = 8], [num_hashes = 5]. *)
Theorem constructor_postcondition (num_bits num_hashes : Z) :
  0 <= num_bits ->
  let bf := BloomFilter2 num_bits num_hashes in
  NumBits bf = 2 ^ Z.min num_bits 33
  /\ NumHashes bf = Z.max 1 num_hashes
  /\ Size bf = 0
  /\ has_flag bf kHasLog2NumBitsError = (33 <? num_bits)
  /\ has_flag bf kHasNumHashesError = (num_hashes <? 1)
  /\ HasParameterError bf = (33 <? num_bits) || (num_hashes <? 1)
  /\ BloomFilter1 num_bits = BloomFilter2 num_bits 5
  /\ BloomFilter0 = BloomFilter2 8 5.
Proof.
  intros He bf.
  split; [now apply NumBits_BloomFilter2|].
  split; [apply NumHashes_BloomFilter2|].
  split; [apply Size_BloomFilter2|].
  unfold HasParameterError, has_flag. subst bf.
  fold (ParameterErrorFlags (BloomFilter2 num_bits num_hashes)).
  rewrite ParameterErrorFlags_BloomFilter2.
  destruct (33 <? num_bits), (num_hashes <? 1); repeat split.
Qed.

Lemma constructor_postcondition_witness :
  0 <= 34
  /\ NumBits (BloomFilter2 34 0) = 2 ^ Z.min 34 33
  /\ NumHashes (BloomFilter2 34 0) = Z.max 1 0.
Proof.
  assert (0 <= 34) as He by lia.
  split; [exact He|].
  destruct (constructor_postcondition 34 0 He) as (HN & Hk & _).
  exact (conj HN Hk).
Defined.

(** X12. A new filter is empty: whatever the constructor arguments, no
    bit of the array is set, and [Contains] returns false for every
    entry. *)
Theorem new_filter_contains_nothing `{Platform} {T : Type} `{Element T}
    (num_bits num_hashes : Z) (entry : T) :
  is_size_t num_bits -> is_size_t num_hashes ->
  let bf := BloomFilter2 num_bits num_hashes in
  (forall h, bit bf h = false)
  /\ fst (Contains entry bf) = false.
Proof.
  intros He Hk bf.
  assert (forall h, bit bf h = false) as Hbits.
  { intros h. apply bit_BloomFilter2, He. }
  split; [exact Hbits|].
  apply not_true_iff_false. rewrite Contains_true.
  assert (wf bf) as Hwf by (apply wf_BloomFilter2; [apply He | apply Hk]).
  destruct Hwf as [[e' [He' HN']] Hk'].
  rewrite (Hash_eq_spec bf e') by (assumption || lia).
  unfold Hash_spec. inversion 1 as [|? ? Hbit _]; subst.
  rewrite Hbits in Hbit. discriminate.
Qed.

Lemma new_filter_contains_nothing_witness :
  is_size_t 3 /\ is_size_t 0
  /\ fst (@Contains linux_x86_64 N unsigned_long_Element 42%N
            (BloomFilter2 3 0))
     = false.
Proof.
  assert (is_size_t 3) as He by (split; [discriminate | reflexivity]).
  assert (is_size_t 0) as Hk by (split; [discriminate | reflexivity]).
  split; [exact He|]. split; [exact Hk|].
  apply (@new_filter_contains_nothing linux_x86_64 N unsigned_long_Element
           3 0 42%N He Hk).
Defined.

(** X13. The error flags of an object built by a constructor and changed
    through the public member functions are always a combination of the
    two defined flags (a value from 0 to 3), whatever mask
    [ClearParameterError] is given; so [HasParameterError()] is true
    exactly when the size-error flag or the hash-count flag is set. *)
Theorem flags_are_the_two_defined `{Platform} {T : Type} `{Element T}
    (bf : BloomFilter) :
  reachable (T := T) bf ->
  0 <= ParameterErrorFlags bf <= 3
  /\ HasParameterError bf
     = has_flag bf kHasLog2NumBitsError || has_flag bf kHasNumHashesError.
Proof.
  intros Hr.
  assert (0 <= ParameterErrorFlags bf <= 3) as Hf.
  { induction Hr as [e k _ _ | bf c _ IH _].
    - rewrite ParameterErrorFlags_BloomFilter2.
      unfold kHasLog2NumBitsError, kHasNumHashesError.
      destruct (33 <? e), (k <? 1); split; discriminate.
    - now apply ParameterErrorFlags_exec. }
  split; [exact Hf | now apply HasParameterError_flags].
Qed.

Lemma flags_are_the_two_defined_witness :
  let bf := snd (@exec linux_x86_64 N unsigned_long_Element
                   (CallClearParameterError (-7)) (BloomFilter2 2 0)) in
  reachable (H := linux_x86_64) (T := N) (H0 := unsigned_long_Element) bf
  /\ 0 <= ParameterErrorFlags bf <= 3.
Proof.
  intros bf.
  assert (reachable (H := linux_x86_64) (T := N)
            (H0 := unsigned_long_Element) bf) as Hr.
  { apply reachable_call.
    - apply reachable_new; split; (discriminate || reflexivity).
    - split; [discriminate | reflexivity]. }
  split; [exact Hr|].
  apply (@flags_are_the_two_defined linux_x86_64 N unsigned_long_Element
           bf Hr).
Defined.

(** X14. [ClearParameterError(flag)] clears the bits of [flag] and no
    other: afterwards the test [(flags & flag) != 0] is false, each of the
    two defined flags that is not in the mask is as before, and the bit
    array, the number of hash functions and the inserted count are
    unchanged.  With the default argument [-1] every flag is cleared and
    [HasParameterError()] is false. *)
Theorem ClearParameterError_clears_only_the_mask
    (flag : Z) (bf : BloomFilter) :
  let bf' := snd (ClearParameterError flag bf) in
  has_flag bf' flag = false
  /\ (has_flag bf' kHasLog2NumBitsError
      = has_flag bf kHasLog2NumBitsError
        && negb (Z.testbit flag 0))
  /\ (has_flag bf' kHasNumHashesError
      = has_flag bf kHasNumHashesError
        && negb (Z.testbit flag 1))
  /\ filter_ bf' = filter_ bf
  /\ NumHashes bf' = NumHashes bf
  /\ Size bf' = Size bf
  /\ HasParameterError (snd (ClearParameterError (-1) bf)) = false.
Proof.
  intros bf'. subst bf'. rewrite !ClearParameterError_eq.
  unfold has_flag, HasParameterError, ParameterErrorFlags.
  cbn [snd parameter_error_flags_ filter_].
  set (f := parameter_error_flags_ bf).
  assert (forall x b, (Z.land x (2 ^ b) =? 0) = negb (Z.testbit x b))
    as Hbit.
  { intros x b. destruct (Z_lt_le_dec b 0) as [Hb|Hb].
    - rewrite Z.pow_neg_r, Z.land_0_r, Z.testbit_neg_r by assumption.
      reflexivity.
    - destruct (Z.testbit x b) eqn:E.
      + destruct (Z.eqb_spec (Z.land x (2 ^ b)) 0) as [E0|]; [|reflexivity].
        apply (f_equal (fun y => Z.testbit y b)) in E0.
        rewrite Z.land_spec, Z.pow2_bits_true, E, Z.bits_0 in E0
          by assumption. discriminate.
      + apply Z.eqb_eq. apply Z.bits_inj'. intros n Hn.
        rewrite Z.land_spec, Z.bits_0, Z.pow2_bits_eqb by assumption.
        destruct (Z.eqb_spec b n) as [->|]; [now rewrite E|].
        apply andb_false_r. }
  repeat split.
  - rewrite <- Z.land_assoc, (Z.land_comm (Z.lnot flag)), Z.land_lnot_diag.
    now rewrite Z.land_0_r.
  - unfold kHasLog2NumBitsError. change 1 with (2 ^ 0).
    rewrite !Hbit, Z.land_spec, Z.lnot_spec by lia.
    now rewrite negb_andb, negb_involutive, !negb_orb, negb_involutive.
  - unfold kHasNumHashesError. change 2 with (2 ^ 1).
    rewrite !Hbit, Z.land_spec, Z.lnot_spec by lia.
    now rewrite negb_andb, negb_involutive, !negb_orb, negb_involutive.
  - change (Z.lnot (-1)) with 0. now rewrite Z.land_0_r.
Qed.

Lemma flag_set_1_other f : Z.land (Z.lor f 1) 2 = Z.land f 2.
Proof. by_bits. Qed.

Lemma flag_clear_1_other f : Z.land (Z.land f (Z.lnot 1)) 2 = Z.land f 2.
Proof. by_bits. Qed.

(** X15. Each setter changes only its own parameter.  [SetNumHashes]
    leaves the bit array (its size and every bit), the inserted count and
    the size-error flag as they were; [SetLog2NumBits] leaves the number
    of hash functions, the inserted count and the hash-count flag as they
    were; neither resets the inserted count. *)
Theorem setters_change_only_their_parameter (n : Z) (bf : BloomFilter) :
  (filter_ (snd (SetNumHashes n bf)) = filter_ bf
   /\ Size (snd (SetNumHashes n bf)) = Size bf
   /\ has_flag (snd (SetNumHashes n bf)) kHasLog2NumBitsError
      = has_flag bf kHasLog2NumBitsError)
  /\ (NumHashes (snd (SetLog2NumBits n bf)) = NumHashes bf
      /\ Size (snd (SetLog2NumBits n bf)) = Size bf
      /\ has_flag (snd (SetLog2NumBits n bf)) kHasNumHashesError
         = has_flag bf kHasNumHashesError).
Proof.
  rewrite SetNumHashes_eq, SetLog2NumBits_eq.
  unfold has_flag, ParameterErrorFlags, kHasLog2NumBitsError,
    kHasNumHashesError.
  destruct (n <? 1), (33 <? n); cbn [snd filter_ parameter_error_flags_];
    rewrite ?flag_set_2_other, ?flag_clear_2_other, ?flag_set_1_other,
      ?flag_clear_1_other; repeat split.
Qed.

(** ** Djb2 on a concatenation *)

Section MoreDjb2Facts.
Context `{Platform}.

Lemma Djb2_loop_append s t hash :
  hash.Djb2_loop (s ++ t) hash = hash.Djb2_loop t (hash.Djb2_loop s hash).
Proof.
  revert hash. induction s as [|c s IH]; intros hash; [reflexivity|].
  cbn [String.append hash.Djb2_loop]. apply IH.
Qed.

Lemma mod_mul_add_idemp x y z m :
  m <> 0 -> (x mod m * y + z) mod m = (x * y + z) mod m.
Proof.
  intros Hm. rewrite <- Z.add_mod_idemp_l by assumption.
  rewrite Z.mul_mod_idemp_l by assumption.
  now rewrite Z.add_mod_idemp_l by assumption.
Qed.

Lemma Djb2_loop_linear t hash :
  is_size_t hash ->
  hash.Djb2_loop t hash
  = (hash * 33 ^ Z.of_nat (String.length t) + hash.Djb2_loop t 0) mod 2 ^ 64.
Proof.
  assert (2 ^ 64 <> 0) as Hm by discriminate.
  revert hash. induction t as [|c t IH]; intros hash Hh.
  - cbn [hash.Djb2_loop String.length]. change (33 ^ Z.of_nat 0) with 1.
    rewrite Z.mul_1_r, Z.add_0_r. symmetry. apply Z.mod_small, Hh.
  - cbn [hash.Djb2_loop String.length]. rewrite !Djb2_step.
    rewrite IH by (apply Z.mod_pos_bound; reflexivity).
    rewrite (IH ((0 * 33 + hash.char_value c) mod 2 ^ 64))
      by (apply Z.mod_pos_bound; reflexivity).
    set (P := 33 ^ Z.of_nat (String.length t)).
    set (D := hash.Djb2_loop t 0).
    rewrite Nat2Z.inj_succ, Z.pow_succ_r by lia. fold P.
    rewrite mod_mul_add_idemp by assumption.
    rewrite Z.add_mod_idemp_r by assumption.
    replace (hash * (33 * P)
             + ((0 * 33 + hash.char_value c) mod 2 ^ 64 * P + D))
      with ((0 * 33 + hash.char_value c) mod 2 ^ 64 * P
            + (hash * (33 * P) + D)) by ring.
    rewrite mod_mul_add_idemp by assumption.
    f_equal. ring.
Qed.

End MoreDjb2Facts.

(** X16. [Djb2] of a concatenation continues from [Djb2] of the prefix:
    [Djb2(s ++ t)] is the loop run over [t] from [Djb2(s)], which is
    [(Djb2(s) * 33^|t| + c(t)) mod 2^64] with [c(t)] the loop run over [t]
    from 0.  The hash of [s ++ t] depends on [s] only through [Djb2(s)]. *)
Theorem Djb2_of_concatenation `{Platform} (s t : string) :
  hash.Djb2 (s ++ t) = hash.Djb2_loop t (hash.Djb2 s)
  /\ hash.Djb2 (s ++ t)
     = (hash.Djb2 s * 33 ^ Z.of_nat (String.length t) + hash.Djb2_loop t 0)
       mod 2 ^ 64.
Proof.
  assert (hash.Djb2 (s ++ t) = hash.Djb2_loop t (hash.Djb2 s)) as E
    by apply Djb2_loop_append.
  split; [exact E|]. rewrite E. apply Djb2_loop_linear, Djb2_range.
Qed.

(** ** main.cc: TotalSize and ParseArguments *)

Lemma TotalSize_loop_sum set total_size :
  is_size_t total_size ->
  main.TotalSize_loop set total_size
  = to_size_t (total_size + 8 * chars_with_terminators set).
Proof.
  revert total_size. induction set as [|str rest IH]; intros total Ht.
  - cbn. rewrite Z.add_0_r. symmetry. now apply to_size_t_small.
  - cbn [main.TotalSize_loop chars_with_terminators fold_right].
    rewrite IH by apply to_size_t_range.
    fold (chars_with_terminators rest).
    set (L := Z.of_nat (String.length str)).
    set (C := chars_with_terminators rest).
    unfold add, mul. rewrite to_size_t_add_l.
    replace (total + to_size_t (to_size_t (L + 1) * 8) + 8 * C)
      with (total + 8 * C + to_size_t (to_size_t (L + 1) * 8)) by lia.
    rewrite to_size_t_add_r.
    replace (total + 8 * C + to_size_t (L + 1) * 8)
      with (to_size_t (L + 1) * 8 + (total + 8 * C)) by lia.
    unfold to_size_t.
    rewrite mod_mul_add_idemp by (pose proof size_t_modulus_pos; lia).
    f_equal. lia.
Qed.

Lemma chars_with_terminators_Permutation set set' :
  Permutation set set' ->
  chars_with_terminators set' = chars_with_terminators set.
Proof.
  induction 1 as [|x l l' _ IH|x y l|l1 l2 l3 _ IH1 _ IH2]; cbn.
  - reflexivity.
  - fold (chars_with_terminators l) (chars_with_terminators l'). lia.
  - lia.
  - congruence.
Qed.

(** X17. [TotalSize] returns eight bits for every [char] of every string
    of the set, the terminating null character of each string included:
    [8 * sum (size + 1)], modulo 2^64.  The result does not depend on the
    order in which the set is traversed. *)
Theorem TotalSize_counts_bits (set : list string) :
  main.TotalSize set = (8 * chars_with_terminators set) mod 2 ^ 64
  /\ forall set', Permutation set set' ->
       main.TotalSize set' = main.TotalSize set.
Proof.
  assert (forall l, main.TotalSize l
                    = (8 * chars_with_terminators l) mod 2 ^ 64) as E.
  { intros l. unfold main.TotalSize. rewrite TotalSize_loop_sum.
    - reflexivity.
    - split; [lia | apply size_t_modulus_pos]. }
  split; [apply E|]. intros set' Hp.
  now rewrite !E, (chars_with_terminators_Permutation set set' Hp).
Qed.

Lemma TotalSize_counts_bits_witness :
  Permutation ["ab"; "c"]%string ["c"; "ab"]%string
  /\ main.TotalSize ["c"; "ab"]%string = main.TotalSize ["ab"; "c"]%string.
Proof.
  assert (Permutation ["ab"; "c"]%string ["c"; "ab"]%string) as Hp
    by apply perm_swap.
  split; [exact Hp|].
  destruct (TotalSize_counts_bits ["ab"; "c"]%string) as [_ Hperm].
  exact (Hperm _ Hp).
Defined.

(** X18. [ParseArguments] asks to exit exactly for the help option: it
    returns true if and only if there is a first argument and it is
    [--help] or [-h]; in that case it leaves the output parameters as they
    were. *)
Theorem ParseArguments_help `{Libc}
    (argv : list string) (out : main.ParsedArguments) :
  (fst (main.ParseArguments argv out) = true
   <-> (1 < length argv)%nat
       /\ (main.argv_at argv 1 = "--help"%string
           \/ main.argv_at argv 1 = "-h"%string))
  /\ (fst (main.ParseArguments argv out) = true ->
      snd (main.ParseArguments argv out) = out).
Proof.
  unfold main.ParseArguments. cbv zeta.
  destruct ((1 <? Z.of_nat (length argv))
            && (String.eqb (main.argv_at argv 1) "--help"
                || String.eqb (main.argv_at argv 1) "-h")) eqn:E;
    cbn [fst snd].
  - split; [|reflexivity]. split; [|reflexivity]. intros _.
    apply andb_true_iff in E. destruct E as [E1 E2].
    apply Z.ltb_lt in E1. apply orb_true_iff in E2.
    rewrite !String.eqb_eq in E2. split; [lia | exact E2].
  - split; [|discriminate]. split; [discriminate|].
    intros [H1 H2]. rewrite <- !String.eqb_eq, <- orb_true_iff in H2.
    rewrite H2, andb_true_r in E. apply Z.ltb_ge in E. lia.
Qed.

Lemma ParseArguments_help_witness :
  let out := main.mkParsedArguments 0 0 0 None in
  fst (@main.ParseArguments decimal_Libc ["bf"; "--help"]%string out) = true
  /\ snd (@main.ParseArguments decimal_Libc ["bf"; "--help"]%string out)
     = out.
Proof.
  intros out.
  assert (fst (@main.ParseArguments decimal_Libc ["bf"; "--help"]%string
                 out) = true) as Hr by reflexivity.
  split; [exact Hr|].
  destruct (@ParseArguments_help decimal_Libc ["bf"; "--help"]%string out)
    as [_ Hout].
  exact (Hout Hr).
Defined.

(** X19. When [ParseArguments] returns false the parameters are usable:
    the number of entries is at least 1, the number of challenges is
    between 1 and [INT_MAX], the exponent is a [std::size_t]; the seed is
    absent exactly when there is no fourth argument and is a 32-bit value
    otherwise; and an argument that is missing leaves the default (13,
    1024, 1024). *)
Theorem ParseArguments_results `{Libc}
    (argv : list string) (out : main.ParsedArguments) :
  fst (main.ParseArguments argv out) = false ->
  let p := snd (main.ParseArguments argv out) in
  is_size_t (main.log2_num_bits p)
  /\ 1 <= main.num_entries p < 2 ^ 64
  /\ 1 <= main.num_challenges p < 2 ^ 31
  /\ (main.seed p = None <-> (length argv <= 4)%nat)
  /\ (forall s, main.seed p = Some s -> 0 <= s < 2 ^ 32)
  /\ ((length argv <= 1)%nat -> main.log2_num_bits p = 13)
  /\ ((length argv <= 2)%nat -> main.num_entries p = 1024)
  /\ ((length argv <= 3)%nat -> main.num_challenges p = 1024).
Proof.
  unfold main.ParseArguments. cbv zeta.
  destruct ((1 <? Z.of_nat (length argv))
            && (String.eqb (main.argv_at argv 1) "--help"
                || String.eqb (main.argv_at argv 1) "-h"));
    [discriminate|]. intros _.
  cbn [snd main.log2_num_bits main.num_entries main.num_challenges main.seed].
  pose proof size_t_modulus_eq as EM.
  pose proof (to_size_t_range (atoi (main.argv_at argv 1))) as R1.
  pose proof (to_size_t_range (atoi (main.argv_at argv 2))) as R2.
  pose proof (atoi_range (main.argv_at argv 3)) as R3.
  unfold is_size_t in *. rewrite EM in *.
  change (2 ^ 64) with 18446744073709551616 in *.
  change (2 ^ 31) with 2147483648 in *.
  change (2 ^ 32) with 4294967296.
  repeat split.
  - destruct (1 <? Z.of_nat (length argv)); lia.
  - destruct (1 <? Z.of_nat (length argv)); lia.
  - destruct (2 <? Z.of_nat (length argv)); [|lia].
    destruct (Z.ltb_spec 0 (to_size_t (atoi (main.argv_at argv 2)))); lia.
  - destruct (2 <? Z.of_nat (length argv)); [|lia].
    destruct (Z.ltb_spec 0 (to_size_t (atoi (main.argv_at argv 2)))); lia.
  - destruct (3 <? Z.of_nat (length argv)); [|lia].
    destruct (Z.ltb_spec 0 (atoi (main.argv_at argv 3))); [|lia].
    rewrite to_size_t_small; [lia|]. unfold is_size_t. rewrite EM. lia.
  - destruct (3 <? Z.of_nat (length argv)); [|lia].
    destruct (Z.ltb_spec 0 (atoi (main.argv_at argv 3))); [|lia].
    rewrite to_size_t_small; [lia|]. unfold is_size_t. rewrite EM. lia.
  - destruct (Z.ltb_spec 4 (Z.of_nat (length argv))); [discriminate | lia].
  - destruct (Z.ltb_spec 4 (Z.of_nat (length argv))); [lia | reflexivity].
  - destruct (4 <? Z.of_nat (length argv)); [|discriminate].
    match goal with Hs : _ = Some _ |- _ => injection Hs as <- end.
    apply (Z.mod_pos_bound (atoi (main.argv_at argv 4)) 4294967296). lia.
  - destruct (4 <? Z.of_nat (length argv)); [|discriminate].
    match goal with Hs : _ = Some _ |- _ => injection Hs as <- end.
    apply (Z.mod_pos_bound (atoi (main.argv_at argv 4)) 4294967296). lia.
  - intros Hl. destruct (Z.ltb_spec 1 (Z.of_nat (length argv)));
      [lia | reflexivity].
  - intros Hl. destruct (Z.ltb_spec 2 (Z.of_nat (length argv)));
      [lia | reflexivity].
  - intros Hl. destruct (Z.ltb_spec 3 (Z.of_nat (length argv)));
      [lia | reflexivity].
Qed.

Lemma ParseArguments_results_witness :
  let out := main.mkParsedArguments 0 0 0 None in
  let argv := ["bf"; "15"; "4096"; "0"; "1234"]%string in
  fst (@main.ParseArguments decimal_Libc argv out) = false
  /\ snd (@main.ParseArguments decimal_Libc argv out)
     = main.mkParsedArguments 15 4096 1024 (Some 1234)
  /\ 1 <= main.num_challenges (snd (@main.ParseArguments decimal_Libc argv out))
     < 2 ^ 31.
Proof.
  intros out argv.
  assert (fst (@main.ParseArguments decimal_Libc argv out) = false) as Hr
    by reflexivity.
  split; [exact Hr|]. split; [reflexivity|].
  destruct (@ParseArguments_results decimal_Libc argv out Hr)
    as (_ & _ & Hc & _).
  exact Hc.
Defined.

(** X20. Negative numbers on the command line: a negative second
    argument is converted to [std::size_t] before the test [value > 0] and
    so becomes a number of entries of [2^64 + value], while a negative or
    zero third argument, tested as an [int], leaves the default of 1024
    challenges. *)
Theorem ParseArguments_negative_arguments `{Libc}
    (argv : list string) (out : main.ParsedArguments) :
  fst (main.ParseArguments argv out) = false ->
  let p := snd (main.ParseArguments argv out) in
  ((2 < length argv)%nat -> atoi (main.argv_at argv 2) < 0 ->
   main.num_entries p = 2 ^ 64 + atoi (main.argv_at argv 2))
  /\ ((3 < length argv)%nat -> atoi (main.argv_at argv 3) <= 0 ->
      main.num_challenges p = 1024).
Proof.
  unfold main.ParseArguments. cbv zeta.
  destruct ((1 <? Z.of_nat (length argv))
            && (String.eqb (main.argv_at argv 1) "--help"
                || String.eqb (main.argv_at argv 1) "-h"));
    [discriminate|]. intros _.
  cbn [snd main.num_entries main.num_challenges].
  pose proof (atoi_range (main.argv_at argv 2)) as R2.
  change (2 ^ 31) with 2147483648 in *.
  split.
  - intros Hl Hneg. destruct (Z.ltb_spec 2 (Z.of_nat (length argv))); [|lia].
    assert (to_size_t (atoi (main.argv_at argv 2))
            = 2 ^ 64 + atoi (main.argv_at argv 2)) as ->.
    { unfold to_size_t. rewrite size_t_modulus_eq.
      change (2 ^ 64) with 18446744073709551616.
      symmetry. apply Z.mod_unique with (q := -1); lia. }
    change (2 ^ 64) with 18446744073709551616.
    destruct (Z.ltb_spec 0 (18446744073709551616 + atoi (main.argv_at argv 2)));
      [reflexivity | lia].
  - intros Hl Hneg. destruct (Z.ltb_spec 3 (Z.of_nat (length argv))); [|lia].
    destruct (Z.ltb_spec 0 (atoi (main.argv_at argv 3))); [lia | reflexivity].
Qed.

Lemma ParseArguments_negative_arguments_witness :
  let out := main.mkParsedArguments 0 0 0 None in
  let argv := ["bf"; "13"; "-5"; "-5"]%string in
  fst (@main.ParseArguments decimal_Libc argv out) = false
  /\ (2 < length argv)%nat
  /\ @atoi decimal_Libc (main.argv_at argv 2) < 0
  /\ main.num_entries (snd (@main.ParseArguments decimal_Libc argv out))
     = 2 ^ 64 + @atoi decimal_Libc (main.argv_at argv 2).
Proof.
  intros out argv.
  assert (fst (@main.ParseArguments decimal_Libc argv out) = false) as Hr
    by reflexivity.
  assert (2 < length argv)%nat as Hl by (cbn; lia).
  assert (@atoi decimal_Libc (main.argv_at argv 2) < 0) as Hneg
    by reflexivity.
  split; [exact Hr|]. split; [exact Hl|]. split; [exact Hneg|].
  destruct (@ParseArguments_negative_arguments decimal_Libc argv out Hr)
    as [He _].
  exact (He Hl Hneg).
Defined.
